(** * Program-log event extraction ([EventParser], ts/dist/esm/index.js)

    A shallow embedding of the log parser of the Anchor TypeScript client:
    [LogScanner], [ExecutionContext] and [EventParser], together with the
    string and regular-expression primitives they rely on.

    JavaScript strings are modelled by [string]; the characters of the
    model are 8-bit, so the line terminators that the regular expression
    dot refuses are LF and CR (U+2028 and U+2029 lie outside the
    alphabet of the model). *)

From Stdlib Require Import String Ascii List Arith Bool Lia Sorted.
Import ListNotations.

Local Open Scope string_scope.
Local Open Scope list_scope.

(** ** JavaScript string primitives *)

Module Js.

(** [s.startsWith(p)] *)
Definition startsWith (s p : string) : bool := String.prefix p s.
Arguments startsWith : simpl never.

(** [s.includes(p)] *)
Fixpoint includes (s p : string) : bool :=
  if startsWith s p then true
  else match s with
       | EmptyString => false
       | String _ s' => includes s' p
       end.

(** [s.slice(n)] for a non-negative [n] *)
Fixpoint slice (s : string) (n : nat) : string :=
  match n, s with
  | O, _ => s
  | S _, EmptyString => EmptyString
  | S n', String _ s' => slice s' n'
  end.

(** [s.split(":")[0]]: the part of [s] before its first colon, the whole
    of [s] when it has none. *)
Fixpoint split_colon_0 (s : string) : string :=
  match s with
  | EmptyString => EmptyString
  | String c s' => if Ascii.eqb c ":" then EmptyString
                   else String c (split_colon_0 s')
  end.

(** Characters the regular-expression dot does not match. *)
Definition line_terminator (c : ascii) : bool :=
  Ascii.eqb c "010" || Ascii.eqb c "013".

(** [true] when the dot matches every character of [s]. *)
Fixpoint dot_star (s : string) : bool :=
  match s with
  | EmptyString => true
  | String c s' => negb (line_terminator c) && dot_star s'
  end.

(** The group of the pattern [G kw R], where [G] is a capturing dot-star
    and [R] a dot-star, tried against the whole of [s] by backtracking:
    the longest [x] with [s = x ++ kw ++ r]. *)
Fixpoint greedy_capture (kw s : string) : option string :=
  match s with
  | EmptyString => if startsWith s kw then Some EmptyString else None
  | String c s' =>
      match greedy_capture kw s' with
      | Some x => Some (String c x)
      | None => if startsWith s kw then Some EmptyString else None
      end
  end.

(** Group 1 of the regular expression [^Program G kw R$] on [s], with [G]
    and [R] as above and no blank around [kw] ([None] when [s] does not
    match).  Without the [m] and [s] flags the anchors are the two ends
    of [s] and the dot stops at a line terminator, so a match needs the
    text after ["Program "] to be free of line terminators. *)
Definition exec_Program (kw s : string) : option string :=
  if startsWith s "Program " then
    let rest := slice s (String.length "Program ") in
    if dot_star rest then greedy_capture kw rest else None
  else None.

(** What [if (v)] sees in a value that is [null] or a string. *)
Definition truthy (v : option string) : bool :=
  match v with
  | None => false
  | Some s => negb (String.eqb s "")
  end.

(** [String(v)] for a value that is [null] or a string. *)
Definition toString (v : option string) : string :=
  match v with
  | None => "null"
  | Some s => s
  end.

End Js.

(** ** The program *)

(** The two ways in which [parseLogs] throws: the [TypeError] raised by
    indexing the [null] that a failed [exec] returns (the malformed log
    stream of the specification), and the failure of [assert.ok] on an
    empty stack (its stack underflow). *)
Inductive Error : Set :=
| TypeError
| AssertionError.

(** How a piece of code ends.  [Timeout] belongs to the model only: it is
    the answer of a loop whose fuel has run out. *)
Inductive outcome (A : Type) : Type :=
| Return (a : A)
| Throw (e : Error)
| Timeout.
Arguments Return {A} a.
Arguments Throw {A} e.
Arguments Timeout {A}.

Definition LOG_START_INDEX : nat := String.length "Program log: ".

(** *** class LogScanner *)
Module LogScanner.

(** The field [logs]. *)
Definition t : Type := list string.

(** [next()]: the returned line and the new value of [logs]. *)
Definition next (logs : t) : option string * t :=
  if Nat.eqb (List.length logs) 0 then (None, logs)
  else (nth_error logs 0, skipn 1 logs).

End LogScanner.

(** *** class ExecutionContext *)
Module ExecutionContext.

(** The field [stack]: an array whose last element is the top. *)
Definition t : Type := list string.

(** The constructor; the regular expression is applied to the string
    conversion of its argument, and a failed match is indexed. *)
Definition new (log : option string) : outcome t :=
  match Js.exec_Program " invoke" (Js.toString log) with
  | Some program => Return [program]
  | None => Throw TypeError
  end.

Definition program (stack : t) : outcome string :=
  if Nat.ltb 0 (List.length stack)
  then Return (nth (List.length stack - 1) stack "undefined"%string)
  else Throw AssertionError.

Definition push (stack : t) (newProgram : string) : t :=
  stack ++ [newProgram].

Definition pop (stack : t) : outcome t :=
  if Nat.ltb 0 (List.length stack)
  then Return (removelast stack)
  else Throw AssertionError.

End ExecutionContext.

(** *** class EventParser *)
Section EventParser.

(** The decoded events, [this.coder.events.decode] and
    [this.programId.toString()]. *)
Variable Event : Type.
Variable decode : string -> option Event.
Variable programId : string.

(** What one call of [parseLogs] acts on: its two objects, the events
    handed to [callback] and the payloads handed to the decoder, both
    oldest first. *)
Record State : Type := mkState {
  execution : ExecutionContext.t;
  logScanner : LogScanner.t;
  emitted : list Event;
  decoded : list string
}.

Definition M (A : Type) : Type := State -> outcome A * State.

Definition ret {A : Type} (a : A) : M A := fun s => (Return a, s).

Definition bind {A B : Type} (m : M A) (k : A -> M B) : M B :=
  fun s =>
    match m s with
    | (Return a, s') => k a s'
    | (Throw e, s') => (Throw e, s')
    | (Timeout, s') => (Timeout, s')
    end.

Notation "x <- m ;; k" := (bind m (fun x => k))
  (at level 61, m at next level, right associativity).
Notation "m ;; k" := (bind m (fun _ => k))
  (at level 61, right associativity).

Definition lift {A : Type} (o : outcome A) : M A := fun s => (o, s).

Definition execution_program : M string :=
  fun s => (ExecutionContext.program (execution s), s).

Definition execution_push (newProgram : string) : M unit :=
  fun s => (Return tt,
            mkState (ExecutionContext.push (execution s) newProgram)
                    (logScanner s) (emitted s) (decoded s)).

Definition execution_pop : M unit :=
  fun s =>
    match ExecutionContext.pop (execution s) with
    | Return stack =>
        (Return tt, mkState stack (logScanner s) (emitted s) (decoded s))
    | Throw e => (Throw e, s)
    | Timeout => (Timeout, s)
    end.

Definition logScanner_next : M (option string) :=
  fun s =>
    let (l, logs) := LogScanner.next (logScanner s) in
    (Return l, mkState (execution s) logs (emitted s) (decoded s)).

Definition callback (event : Event) : M unit :=
  fun s => (Return tt,
            mkState (execution s) (logScanner s) (emitted s ++ [event])
                    (decoded s)).

Definition coder_events_decode (logStr : string) : M (option Event) :=
  fun s => (Return (decode logStr),
            mkState (execution s) (logScanner s) (emitted s)
                    (decoded s ++ [logStr])).

(** [handleSystemLog(log)]: the pair of the invoked program and of the
    completion flag. *)
Definition handleSystemLog (log : string) : option string * bool :=
  let logStart := Js.split_colon_0 log in
  if Js.startsWith logStart ("Program " ++ programId ++ " invoke") then
    (Some programId, false)
  else if Js.includes logStart "invoke" then
    (Some "cpi"%string, false)
  else
    if match Js.exec_Program " consumed " logStart with
       | Some _ => true
       | None => false
       end
    then (None, true)
    else (None, false).

(** [handleProgramLog(log)]: the event, then the pair above. *)
Definition handleProgramLog (log : string)
  : M (option Event * (option string * bool)) :=
  if Js.startsWith log "Program log:" then
    let logStr := Js.slice log LOG_START_INDEX in
    event <- coder_events_decode logStr ;;
    ret (event, (None, false))
  else
    ret (None, handleSystemLog log).

(** [handleLog(execution, log)] *)
Definition handleLog (log : string)
  : M (option Event * (option string * bool)) :=
  p <- execution_program ;;
  if String.eqb p programId then handleProgramLog log
  else ret (None, handleSystemLog log).

(** The body of the loop of [parseLogs]; its value is the new [log].
    Where [newProgram] passes the test it is a string, the one pushed. *)
Definition iteration (log : string) : M (option string) :=
  r <- handleLog log ;;
  let '(event, (newProgram, didPop)) := r in
  match event with
  | Some e => callback e
  | None => ret tt
  end ;;
  (if Js.truthy newProgram
   then execution_push (Js.toString newProgram)
   else ret tt) ;;
  (if didPop
   then execution_pop ;; _ <- logScanner_next ;; ret tt
   else ret tt) ;;
  logScanner_next.

(** [while (log !== null) { ... }] *)
Fixpoint while (fuel : nat) (log : option string) : M unit :=
  match fuel with
  | O => lift Timeout
  | S fuel' =>
      match log with
      | None => ret tt
      | Some l => log' <- iteration l ;; while fuel' log'
      end
  end.

(** [parseLogs(logs, callback)].  Each turn of the loop reads a line, so
    the length of [logs] bounds their number.  When the constructor of
    the context throws there is no stack yet. *)
Definition parseLogs (logs : list string) : outcome unit * State :=
  let (first, scanner) := LogScanner.next logs in
  match ExecutionContext.new first with
  | Return stack =>
      (log <- logScanner_next ;; while (S (List.length logs)) log)
        (mkState stack scanner [] [])
  | Throw e => (Throw e, mkState [] scanner [] [])
  | Timeout => (Timeout, mkState [] scanner [] [])
  end.

End EventParser.

Arguments mkState {Event}.
Arguments execution {Event}.
Arguments logScanner {Event}.
Arguments emitted {Event}.
Arguments decoded {Event}.

(** ** Vocabulary of the properties *)

Section Vocabulary.

Import Js.

Variable Event : Type.
Variable decode : string -> option Event.

(** The regular expression [^Program G kw R$] as a relation between the
    subject and its first group. *)
Definition matches_Program (kw s x : string) : Prop :=
  exists r, s = ("Program " ++ x ++ kw ++ r)%string
            /\ dot_star x = true /\ dot_star kw = true /\ dot_star r = true.

(** The stack after the push, if any, of a turn. *)
Definition pushed (stack : list string) (newProgram : option string)
  : list string :=
  if truthy newProgram then stack ++ [toString newProgram] else stack.

(** The lines that the loop has still to read. *)
Definition pending (log : option string) (s : State Event) : list string :=
  match log with
  | Some l => l :: logScanner s
  | None => logScanner s
  end.

(** The line [l] is a program log whose payload decodes to [e]. *)
Definition emits (l : string) (e : Event) : Prop :=
  startsWith l "Program log:" = true
  /\ decode (slice l LOG_START_INDEX) = Some e.

(** The events [es] come, in this order and one per line, from lines of
    [ls]. *)
Inductive sourced : list string -> list Event -> Prop :=
| sourced_nil : sourced [] []
| sourced_skip (l : string) (ls : list string) (es : list Event) :
    sourced ls es -> sourced (l :: ls) es
| sourced_emit (l : string) (ls : list string) (e : Event)
               (es : list Event) :
    emits l e -> sourced ls es -> sourced (l :: ls) (e :: es).

End Vocabulary.

Arguments pending {Event} log s.

(** A decoder that takes every payload for an event, the payload itself,
    and the logs of a transaction of the program T1 that logs once. *)
Definition decode_every (payload : string) : option string := Some payload.

Definition logs_T1 : list string :=
  ["Program T1 invoke [1]"; "Program log: hello";
   "Program T1 consumed 100 units"; "Program T1 success"]%string.

(** ** Vocabulary of the further properties *)

Section Runs.

Import Js.

Variable Event : Type.
Variable decode : string -> option Event.
Variable programId : string.

(** [k] turns of the loop in a row, each ending normally: the line and
    the state that the next turn would start from. *)
Fixpoint turns (k : nat) (log : option string) (s : State Event)
  : option (option string * State Event) :=
  match k with
  | O => Some (log, s)
  | S k' =>
      match log with
      | None => None
      | Some l =>
          match iteration Event decode programId l s with
          | (Return log', s') => turns k' log' s'
          | (Throw _, _) => None
          | (Timeout, _) => None
          end
      end
  end.

(** The events of the payloads that decode, in the order of the
    payloads. *)
Definition decodes (payloads : list string) : list Event :=
  flat_map (fun p => match decode p with
                     | Some e => [e]
                     | None => []
                     end) payloads.

(** The lines for which [handleSystemLog] answers a program that passes
    the test of the push, and those for which it answers the flag of the
    pop. *)
Definition opens (l : string) : bool :=
  truthy (fst (handleSystemLog programId l)).

Definition closes (l : string) : bool :=
  snd (handleSystemLog programId l).

(** Logs in which every line that opens a frame is answered, after
    balanced logs, by a line that closes one and the line dropped with
    it. *)
Inductive balanced : list string -> Prop :=
| balanced_nil : balanced []
| balanced_line (l : string) (ls : list string) :
    opens l = false -> closes l = false -> balanced ls ->
    balanced (l :: ls)
| balanced_call (o : string) (inner : list string) (c d : string)
                (ls : list string) :
    opens o = true -> balanced inner -> closes c = true -> balanced ls ->
    balanced (o :: inner ++ c :: d :: ls).

End Runs.

(** ** Facts about the string primitives *)

Section StringFacts.

Import Js.

Lemma append_assoc (a b c : string) :
  ((a ++ b) ++ c = a ++ (b ++ c))%string.
Proof. induction a as [|x a IH]; simpl; [reflexivity | now rewrite IH]. Qed.

Lemma startsWith_app (p r : string) : startsWith (p ++ r) p = true.
Proof.
  unfold startsWith. induction p as [|c p IH]; simpl.
  - now destruct r.
  - destruct (ascii_dec c c) as [_|n]; [exact IH | now elim n].
Qed.

Lemma startsWith_inv (s p : string) :
  startsWith s p = true -> exists r, s = (p ++ r)%string.
Proof.
  unfold startsWith. revert s. induction p as [|c p IH]; intros s H.
  - now exists s.
  - destruct s as [|d s]; simpl in H; [discriminate|].
    destruct (ascii_dec c d) as [->|_]; [|discriminate].
    destruct (IH _ H) as [r ->]. now exists r.
Qed.

Lemma startsWith_spec (s p : string) :
  startsWith s p = true <-> exists r, s = (p ++ r)%string.
Proof.
  split; [apply startsWith_inv | intros [r ->]; apply startsWith_app].
Qed.

Lemma includes_intro (a p b : string) : includes (a ++ p ++ b) p = true.
Proof.
  induction a as [|c a IH].
  - change ("" ++ p ++ b)%string with (p ++ b)%string.
    pose proof (startsWith_app p b) as H.
    destruct (p ++ b)%string; simpl; now rewrite H.
  - simpl. rewrite IH. now destruct (startsWith _ _).
Qed.

Lemma includes_inv (s p : string) :
  includes s p = true -> exists a b, s = (a ++ p ++ b)%string.
Proof.
  induction s as [|c s IH]; simpl; intros H.
  - destruct (startsWith "" p) eqn:E; [|discriminate].
    apply startsWith_inv in E as [r E]. now exists "", r.
  - destruct (startsWith (String c s) p) eqn:E.
    + apply startsWith_inv in E as [r E]. now exists "", r.
    + destruct (IH H) as (a & b & ->). now exists (String c a), b.
Qed.

Lemma includes_spec (s p : string) :
  includes s p = true <-> exists a b, s = (a ++ p ++ b)%string.
Proof.
  split; [apply includes_inv | intros (a & b & ->); apply includes_intro].
Qed.

Lemma split_colon_0_prefix (s : string) :
  exists r, s = (split_colon_0 s ++ r)%string.
Proof.
  induction s as [|c s [r IH]]; simpl.
  - now exists "".
  - destruct (Ascii.eqb c ":").
    + now exists (String c s).
    + exists r. simpl. now rewrite <- IH.
Qed.

(** The head of a line that starts with the program-log marker. *)
Lemma split_colon_0_Program_log (s : string) :
  startsWith s "Program log:" = true -> split_colon_0 s = "Program log".
Proof.
  intros H. apply startsWith_inv in H as [r ->]. reflexivity.
Qed.

Lemma slice_app (p r : string) : slice (p ++ r) (String.length p) = r.
Proof. induction p as [|c p IH]; simpl; [now destruct r | exact IH]. Qed.

Lemma dot_star_app (a b : string) :
  dot_star (a ++ b) = dot_star a && dot_star b.
Proof.
  induction a as [|c a IH]; simpl; [reflexivity|].
  now rewrite IH, andb_assoc.
Qed.

Lemma greedy_capture_sound (kw s x : string) :
  greedy_capture kw s = Some x -> exists r, s = (x ++ kw ++ r)%string.
Proof.
  revert x. induction s as [|c s IH]; intros x; simpl.
  - destruct (startsWith "" kw) eqn:E; [|discriminate].
    intros [= <-]. apply startsWith_inv in E as [r E]. now exists r.
  - destruct (greedy_capture kw s) as [y|].
    + intros [= <-]. destruct (IH y eq_refl) as [r ->]. now exists r.
    + destruct (startsWith (String c s) kw) eqn:E; [|discriminate].
      intros [= <-]. apply startsWith_inv in E as [r E]. now exists r.
Qed.

Lemma greedy_capture_startsWith (kw s : string) :
  startsWith s kw = true -> exists y, greedy_capture kw s = Some y.
Proof.
  intros H. destruct s as [|c s]; simpl.
  - rewrite H. now exists "".
  - destruct (greedy_capture kw s) as [y|]; [now exists (String c y)|].
    rewrite H. now exists "".
Qed.

(** Greediness: no decomposition of the subject has a longer first part. *)
Lemma greedy_capture_complete (kw x r : string) :
  exists y, greedy_capture kw (x ++ kw ++ r) = Some y
            /\ String.length x <= String.length y.
Proof.
  induction x as [|c x (y & IH & Hlen)].
  - destruct (greedy_capture_startsWith kw (kw ++ r) (startsWith_app kw r))
      as [y Hy].
    exists y. split; [exact Hy | simpl; lia].
  - simpl. rewrite IH. exists (String c y). split; [reflexivity | simpl; lia].
Qed.

Lemma exec_Program_sound (kw s x : string) :
  exec_Program kw s = Some x -> matches_Program kw s x.
Proof.
  unfold exec_Program. destruct (startsWith s "Program ") eqn:E; [|discriminate].
  apply startsWith_inv in E as [t ->].
  rewrite (slice_app "Program " t).
  destruct (dot_star t) eqn:D; [|discriminate].
  intros H. apply greedy_capture_sound in H as [r ->].
  rewrite !dot_star_app in D.
  apply andb_prop in D as [Dx D]. apply andb_prop in D as [Dk Dr].
  now exists r.
Qed.

Lemma exec_Program_complete (kw s x : string) :
  matches_Program kw s x ->
  exists y, exec_Program kw s = Some y /\ String.length x <= String.length y.
Proof.
  intros (r & -> & Dx & Dk & Dr). unfold exec_Program.
  rewrite (startsWith_app "Program "), (slice_app "Program ").
  rewrite !dot_star_app, Dx, Dk, Dr. simpl.
  apply greedy_capture_complete.
Qed.

Lemma exec_Program_None (kw s : string) :
  exec_Program kw s = None <-> forall x, ~ matches_Program kw s x.
Proof.
  split.
  - intros H x M. apply exec_Program_complete in M as (y & E & _). congruence.
  - intros H. destruct (exec_Program kw s) as [x|] eqn:E; [|reflexivity].
    elim (H x). now apply exec_Program_sound.
Qed.

(** The group is a substring of the subject. *)
Lemma exec_Program_includes (kw s x : string) :
  exec_Program kw s = Some x -> includes s x = true.
Proof.
  intros H. apply exec_Program_sound in H as (r & -> & _).
  apply (includes_intro "Program " x (kw ++ r)).
Qed.

End StringFacts.

(** ** The objects of the parser: scanner and stack *)

Section Objects.

Lemma next_eq (logs : LogScanner.t) :
  LogScanner.next logs = (hd_error logs, tl logs).
Proof. now destruct logs. Qed.

Lemma program_snoc (st : list string) (top : string) :
  ExecutionContext.program (st ++ [top]) = Return top.
Proof.
  unfold ExecutionContext.program. rewrite length_app. simpl.
  replace (List.length st + 1 - 1) with (List.length st + 0) by lia.
  rewrite app_nth2_plus. simpl.
  destruct (Nat.ltb_spec 0 (List.length st + 1)); [reflexivity | lia].
Qed.

Lemma pop_snoc (st : list string) (top : string) :
  ExecutionContext.pop (st ++ [top]) = Return st.
Proof.
  unfold ExecutionContext.pop. rewrite length_app, removelast_last. simpl.
  destruct (Nat.ltb_spec 0 (List.length st + 1)); [reflexivity | lia].
Qed.

Lemma stack_cases (stack : list string) :
  stack = [] \/ exists st top, stack = st ++ [top].
Proof.
  destruct stack as [|p stack] using rev_ind; [now left | right].
  now exists stack, p.
Qed.

End Objects.

(** ** One turn of the loop *)

Section Turn.

Import Js.

Variable Event : Type.
Variable decode : string -> option Event.
Variable programId : string.

Local Abbreviation State := (State Event).
Local Abbreviation iteration := (iteration Event decode programId).
Local Abbreviation handleLog := (handleLog Event decode programId).
Local Abbreviation handleProgramLog := (handleProgramLog Event decode programId).
Local Abbreviation handleSystemLog := (handleSystemLog programId).

Lemma length_append (a b : string) :
  String.length (a ++ b) = String.length a + String.length b.
Proof. induction a as [|c a IH]; simpl; [reflexivity | now rewrite IH]. Qed.

Lemma startsWith_length (s p : string) :
  startsWith s p = true -> String.length p <= String.length s.
Proof.
  intros H. apply startsWith_inv in H as [r ->]. rewrite length_append. lia.
Qed.

(** The pattern of a recursive call holds the word that the pattern of a
    call of another program looks for. *)
Lemma startsWith_invoke_includes (s : string) :
  startsWith s ("Program " ++ programId ++ " invoke") = true ->
  includes s "invoke" = true.
Proof.
  intros H. apply startsWith_inv in H as [r ->].
  apply includes_spec. exists ("Program " ++ programId ++ " ")%string, r.
  now rewrite !append_assoc.
Qed.

(** The target occurs in a line that announces its invocation. *)
Lemma startsWith_invoke_target (l : string) :
  startsWith (split_colon_0 l) ("Program " ++ programId ++ " invoke") = true ->
  includes l programId = true.
Proof.
  intros H. apply startsWith_inv in H as [r H].
  destruct (split_colon_0_prefix l) as [t E]. rewrite H in E.
  apply includes_spec. exists "Program "%string, (" invoke" ++ r ++ t)%string.
  rewrite E. now rewrite !append_assoc.
Qed.

(** The four answers of [handleSystemLog]. *)
Lemma handleSystemLog_cases (log : string) :
  let logStart := split_colon_0 log in
  (startsWith logStart ("Program " ++ programId ++ " invoke") = true
   /\ handleSystemLog log = (Some programId, false))
  \/ (startsWith logStart ("Program " ++ programId ++ " invoke") = false
      /\ includes logStart "invoke" = true
      /\ handleSystemLog log = (Some "cpi"%string, false))
  \/ (includes logStart "invoke" = false
      /\ exec_Program " consumed " logStart <> None
      /\ handleSystemLog log = (None, true))
  \/ (includes logStart "invoke" = false
      /\ exec_Program " consumed " logStart = None
      /\ handleSystemLog log = (None, false)).
Proof.
  intros logStart. unfold handleSystemLog. fold logStart.
  destruct (startsWith logStart _) eqn:E1; [now left | right].
  destruct (includes logStart "invoke") eqn:E2; [now left | right].
  destruct (exec_Program " consumed " logStart) eqn:E3; [left | right];
    repeat split; congruence.
Qed.

(** A program log line bears no system marker. *)
Lemma handleSystemLog_Program_log (log : string) :
  startsWith log "Program log:" = true ->
  handleSystemLog log = (None, false).
Proof.
  intros H. unfold handleSystemLog.
  rewrite (split_colon_0_Program_log _ H).
  destruct (startsWith "Program log" _) eqn:E.
  - apply startsWith_length in E. rewrite !length_append in E.
    simpl in E. lia.
  - reflexivity.
Qed.

(** The turn of a line met with an empty stack. *)
Lemma iteration_empty (l : string) (s : State) :
  execution s = [] -> iteration l s = (Throw AssertionError, s).
Proof.
  intros H. unfold iteration, handleLog, bind, execution_program.
  now rewrite H.
Qed.

(** The turn of a program log line of the target. *)
Lemma iteration_program (l : string) (s : State) (st : list string) :
  execution s = st ++ [programId] ->
  startsWith l "Program log:" = true ->
  iteration l s =
    (Return (hd_error (logScanner s)),
     mkState (execution s) (tl (logScanner s))
             (emitted s ++ match decode (slice l LOG_START_INDEX) with
                           | Some e => [e]
                           | None => []
                           end)
             (decoded s ++ [slice l LOG_START_INDEX])).
Proof.
  destruct s as [ex sc em de]. simpl. intros -> Hl.
  unfold iteration, handleLog, handleProgramLog, bind, execution_program.
  simpl. rewrite program_snoc, String.eqb_refl, Hl.
  unfold coder_events_decode, ret, callback, logScanner_next.
  destruct (decode _); simpl; rewrite next_eq; simpl;
    rewrite ?app_nil_r; reflexivity.
Qed.

(** The turn of every other line met with a stack that is not empty. *)
Lemma iteration_system (l : string) (s : State) (st : list string)
      (top : string) :
  execution s = st ++ [top] ->
  top <> programId \/ startsWith l "Program log:" = false ->
  iteration l s =
    match handleSystemLog l with
    | (newProgram, false) =>
        (Return (hd_error (logScanner s)),
         mkState (pushed (execution s) newProgram) (tl (logScanner s))
                 (emitted s) (decoded s))
    | (newProgram, true) =>
        (Return (hd_error (tl (logScanner s))),
         mkState (removelast (pushed (execution s) newProgram))
                 (tl (tl (logScanner s))) (emitted s) (decoded s))
    end.
Proof.
  destruct s as [ex sc em de]. simpl. intros -> Hsys.
  set (s := mkState (st ++ [top]) sc em de).
  assert (Hh : handleLog l s = (Return (None, handleSystemLog l), s)).
  { unfold handleLog, handleProgramLog, bind, execution_program.
    simpl. rewrite program_snoc.
    destruct (String.eqb_spec top programId) as [->|_]; [|reflexivity].
    destruct Hsys as [Hsys | ->]; [now elim Hsys | reflexivity]. }
  unfold iteration, bind at 1. rewrite Hh.
  destruct (handleSystemLog l) as [newProgram didPop].
  unfold bind, ret, pushed, execution_push, execution_pop, logScanner_next.
  destruct (truthy newProgram), didPop; simpl; rewrite ?next_eq; simpl.
  - unfold ExecutionContext.push.
    rewrite pop_snoc, removelast_last. simpl. now rewrite !next_eq.
  - reflexivity.
  - rewrite pop_snoc, removelast_last. simpl. now rewrite !next_eq.
  - reflexivity.
Qed.

(** The turn of a completion line. *)
Lemma iteration_consumed (l : string) (s : State) (st : list string)
      (top : string) :
  execution s = st ++ [top] ->
  exec_Program " consumed " (split_colon_0 l) <> None ->
  includes (split_colon_0 l) "invoke" = false ->
  iteration l s =
    (Return (hd_error (tl (logScanner s))),
     mkState st (tl (tl (logScanner s))) (emitted s) (decoded s)).
Proof.
  intros Hst Hc Hi.
  assert (Hsys : top <> programId \/ startsWith l "Program log:" = false).
  { destruct (startsWith l "Program log:") eqn:E; [|now right].
    rewrite (split_colon_0_Program_log _ E) in Hc. now elim Hc. }
  rewrite (iteration_system _ _ _ _ Hst Hsys).
  destruct (handleSystemLog_cases l)
    as [(H1 & _) | [(_ & H2 & _) | [(_ & _ & ->) | (_ & H3 & _)]]].
  - apply startsWith_invoke_includes in H1. congruence.
  - congruence.
  - unfold pushed. simpl. now rewrite Hst, removelast_last.
  - now elim Hc.
Qed.

End Turn.

(** ** The loop *)

Section Loop.

Import Js.

Variable Event : Type.
Variable decode : string -> option Event.
Variable programId : string.

Local Abbreviation State := (State Event).
Local Abbreviation iteration := (iteration Event decode programId).
Local Abbreviation while := (while Event decode programId).
Local Abbreviation parseLogs := (parseLogs Event decode programId).
Local Abbreviation handleSystemLog := (handleSystemLog programId).

Lemma pending_hd_tl (sc : list string) (ex : list string)
      (em : list Event) (de : list string) :
  pending (hd_error sc) (mkState ex (tl sc) em de) = sc.
Proof. now destruct sc. Qed.

Lemma turn_cases (l : string) (s : State) :
  execution s = []
  \/ (exists st, execution s = st ++ [programId]
                 /\ startsWith l "Program log:" = true)
  \/ (exists st top, execution s = st ++ [top]
                     /\ (top <> programId
                         \/ startsWith l "Program log:" = false)).
Proof.
  destruct (stack_cases (execution s)) as [H | (st & top & H)]; [now left|].
  right. destruct (String.eqb_spec top programId) as [->|Hne].
  - destruct (startsWith l "Program log:") eqn:E.
    + left. now exists st.
    + right. exists st, programId. now split; [|right].
  - right. exists st, top. now split; [|left].
Qed.

(** A turn either throws on an empty stack, leaving everything as it
    was, or ends normally with fewer lines to read. *)
Lemma iteration_result (l : string) (s : State) :
  (execution s = [] /\ iteration l s = (Throw AssertionError, s))
  \/ (execution s <> []
      /\ exists log' s', iteration l s = (Return log', s')
           /\ (pending log' s' = logScanner s
               \/ pending log' s' = tl (logScanner s))).
Proof.
  destruct (turn_cases l s) as [H | [(st & H & Hl) | (st & top & H & Hs)]].
  - left. split; [exact H | now apply iteration_empty].
  - right. split; [rewrite H; now destruct st|].
    rewrite (iteration_program _ _ _ _ _ _ H Hl).
    do 2 eexists. split; [reflexivity|]. left. apply pending_hd_tl.
  - right. split; [rewrite H; now destruct st|].
    rewrite (iteration_system _ decode _ _ _ _ _ H Hs).
    destruct (handleSystemLog l) as [np [|]];
      do 2 eexists; (split; [reflexivity|]).
    + right. apply pending_hd_tl.
    + left. apply pending_hd_tl.
Qed.

Lemma length_tl_le (A : Type) (ls : list A) :
  List.length (tl ls) <= List.length ls.
Proof. destruct ls; simpl; lia. Qed.

(** The rule of the loop: an invariant of the turns that end normally,
    and a postcondition met at the end of the stream and at a throw. *)
Lemma while_rule (Inv : option string -> State -> Prop)
      (Post : outcome unit -> State -> Prop) :
  (forall s, Inv None s -> Post (Return tt) s) ->
  (forall l s, Inv (Some l) s ->
     match iteration l s with
     | (Return log', s') => Inv log' s'
     | (Throw e, s') => Post (Throw e) s'
     | (Timeout, _) => False
     end) ->
  forall fuel log s,
    List.length (pending log s) < fuel -> Inv log s ->
    Post (fst (while fuel log s)) (snd (while fuel log s)).
Proof.
  intros Hend Hturn. induction fuel as [|fuel IH]; intros log s Hlen HI.
  - lia.
  - destruct log as [l|]; simpl; [|now apply Hend].
    unfold bind. specialize (Hturn l s HI).
    destruct (iteration_result l s) as [[_ E] | [_ (log' & s' & E & Hp)]];
      rewrite E in *; simpl; [exact Hturn|].
    apply IH; [|exact Hturn].
    simpl in Hlen. pose proof (length_tl_le _ (logScanner s)).
    destruct Hp as [-> | ->]; lia.
Qed.

(** The state in which [parseLogs] enters its loop. *)
Lemma parseLogs_enter (l : string) (rest : list string) (x : string) :
  exec_Program " invoke" l = Some x ->
  parseLogs (l :: rest) =
    while (S (S (List.length rest))) (hd_error rest)
          (mkState [x] (tl rest) [] []).
Proof.
  intros H. unfold parseLogs, ExecutionContext.new. rewrite next_eq. simpl.
  rewrite H. unfold bind, logScanner_next. simpl. now rewrite next_eq.
Qed.

Lemma parseLogs_malformed (logs : list string) :
  exec_Program " invoke" (toString (hd_error logs)) = None ->
  parseLogs logs = (Throw TypeError, mkState [] (tl logs) [] []).
Proof.
  intros H. unfold parseLogs, ExecutionContext.new. rewrite next_eq.
  now rewrite H.
Qed.

(** [parseLogs] as a postcondition of its loop. *)
Lemma parseLogs_rule (Inv : option string -> State -> Prop)
      (Post : outcome unit -> State -> Prop) (logs : list string) :
  (forall s, Inv None s -> Post (Return tt) s) ->
  (forall l s, Inv (Some l) s ->
     match iteration l s with
     | (Return log', s') => Inv log' s'
     | (Throw e, s') => Post (Throw e) s'
     | (Timeout, _) => False
     end) ->
  (exec_Program " invoke" (toString (hd_error logs)) = None ->
   Post (Throw TypeError) (mkState [] (tl logs) [] [])) ->
  (forall l rest x, logs = l :: rest -> exec_Program " invoke" l = Some x ->
     Inv (hd_error rest) (mkState [x] (tl rest) [] [])) ->
  Post (fst (parseLogs logs)) (snd (parseLogs logs)).
Proof.
  intros Hend Hturn Hbad Hinit.
  destruct (exec_Program " invoke" (toString (hd_error logs))) as [x|] eqn:E.
  - destruct logs as [|l rest]; [discriminate E|]. simpl in E.
    rewrite (parseLogs_enter _ _ _ E).
    apply (while_rule Inv Post Hend Hturn).
    + rewrite pending_hd_tl. lia.
    + now apply (Hinit l rest x).
  - rewrite (parseLogs_malformed _ E). now apply Hbad.
Qed.

(** The loop of [parseLogs] never runs out of fuel. *)
Lemma parseLogs_terminates (logs : list string) :
  fst (parseLogs logs) <> Timeout.
Proof.
  apply (parseLogs_rule (fun _ _ => True) (fun o _ => o <> Timeout));
    try easy.
  intros l s _.
  destruct (iteration_result l s) as [[_ E] | [_ (log' & s' & E & _)]];
    now rewrite E.
Qed.

End Loop.

(** ** Order of the emitted events *)

Section Order.

Import Js.

Variable Event : Type.
Variable decode : string -> option Event.
Variable programId : string.

Local Abbreviation State := (State Event).
Local Abbreviation iteration := (iteration Event decode programId).
Local Abbreviation while := (while Event decode programId).
Local Abbreviation parseLogs := (parseLogs Event decode programId).
Local Abbreviation handleSystemLog := (handleSystemLog programId).
Local Abbreviation emits := (emits Event decode).
Local Abbreviation sourced := (sourced Event decode).

Lemma sourced_none (ls : list string) : sourced ls [].
Proof. induction ls; now constructor. Qed.

Lemma sourced_tl (ls : list string) (es : list Event) :
  sourced (tl ls) es -> sourced ls es.
Proof. destruct ls; [easy | now constructor]. Qed.

Lemma while_sourced (fuel : nat) :
  forall (log : option string) (s : State),
  exists es, emitted (snd (while fuel log s)) = emitted s ++ es
             /\ sourced (pending log s) es.
Proof.
  induction fuel as [|fuel IH]; intros log s.
  - exists []. split; [simpl; now rewrite app_nil_r | apply sourced_none].
  - destruct log as [l|]; simpl;
      [|exists []; split; [now rewrite app_nil_r | apply sourced_none]].
    unfold bind.
    destruct (turn_cases Event programId l s)
      as [H | [(st & H & Hl) | (st & top & H & Hs)]].
    + rewrite (iteration_empty _ _ _ _ _ H). exists [].
      split; [simpl; now rewrite app_nil_r | apply sourced_none].
    + rewrite (iteration_program _ _ _ _ _ _ H Hl).
      match goal with |- context [while fuel ?g ?s1] =>
        destruct (IH g s1) as (es & E & Hes) end.
      rewrite pending_hd_tl in Hes. simpl in E. rewrite <- app_assoc in E.
      eexists. split; [exact E|].
      destruct (decode (slice l LOG_START_INDEX)) eqn:D; simpl.
      * now apply sourced_emit.
      * now apply sourced_skip.
    + rewrite (iteration_system _ decode _ _ _ _ _ H Hs).
      destruct (handleSystemLog l) as [np [|]];
        match goal with |- context [while fuel ?g ?s1] =>
          destruct (IH g s1) as (es & E & Hes) end;
        rewrite pending_hd_tl in Hes; simpl in E;
        exists es; (split; [exact E|]); apply sourced_skip;
        [now apply sourced_tl | exact Hes].
Qed.

Lemma sorted_shift (idx : list nat) :
  StronglySorted lt idx -> StronglySorted lt (map S idx).
Proof.
  induction 1 as [|i idx _ IH Hall]; simpl; constructor; [exact IH|].
  apply Forall_map. eapply Forall_impl; [|exact Hall]. simpl. lia.
Qed.

(** The lines of the events, by their positions. *)
Lemma sourced_positions (ls : list string) (es : list Event) :
  sourced ls es ->
  exists idx : list nat,
    StronglySorted lt idx
    /\ Forall2 (fun i e => exists l, nth_error ls i = Some l /\ emits l e)
               idx es.
Proof.
  induction 1 as [|l ls es _ (idx & Hs & Hall)|l ls e es He _ (idx & Hs & Hall)].
  - exists []. split; constructor.
  - exists (map S idx). split; [now apply sorted_shift|].
    clear Hs. induction Hall; simpl; now constructor.
  - exists (0 :: map S idx). split.
    + constructor; [now apply sorted_shift|].
      apply Forall_map, Forall_forall. intros; lia.
    + constructor; [now exists l|].
      clear Hs. induction Hall; simpl; now constructor.
Qed.

End Order.

(** ** Properties of the extractor *)

Section Properties.

Import Js.

Variable Event : Type.
Variable decode : string -> option Event.
Variable programId : string.

Local Abbreviation State := (State Event).
Local Abbreviation iteration := (iteration Event decode programId).
Local Abbreviation handleLog := (handleLog Event decode programId).
Local Abbreviation while := (while Event decode programId).
Local Abbreviation parseLogs := (parseLogs Event decode programId).
Local Abbreviation handleSystemLog := (handleSystemLog programId).

(** C1, amended.  [pop] throws exactly on a stack that is already empty;
    on a stack of one element it succeeds and leaves the stack empty.
    The loop looks at the top of the stack before it classifies a line:
    a line met with an empty stack aborts the extraction with the failed
    assertion, and a line met with a stack that is not empty never
    throws. *)
Theorem pop_throws_on_empty_stack_only (stack : list string) :
  (ExecutionContext.pop stack = Throw AssertionError <-> stack = [])
  /\ (forall p, stack = [p] -> ExecutionContext.pop stack = Return [])
  /\ forall (l : string) (s : State), execution s = stack ->
       (stack = [] -> iteration l s = (Throw AssertionError, s))
       /\ (stack <> [] -> exists log' s', iteration l s = (Return log', s')).
Proof.
  split; [|split].
  - destruct (stack_cases stack) as [-> | (st & top & ->)].
    + now split.
    + rewrite pop_snoc. split; [discriminate | now destruct st].
  - intros p ->. exact (pop_snoc [] p).
  - intros l s <-. split.
    + apply iteration_empty.
    + intros Hne.
      destruct (iteration_result Event decode programId l s)
        as [[H _] | [_ (log' & s' & E & _)]]; [now elim Hne|].
      now exists log', s'.
Qed.

(** C2, amended.  For every line that the loop classifies (the stack is
    not empty) whose head, the part before its first colon, matches the
    completion pattern and does not contain the word invoke, the
    extractor pops the stack and discards the line that follows unread,
    whatever that line is: the next line classified is the second one
    after the completion line. *)
Theorem consumed_pops_and_skips (l : string) (s : State)
        (st : list string) (top : string) :
  execution s = st ++ [top] ->
  exec_Program " consumed " (split_colon_0 l) <> None ->
  includes (split_colon_0 l) "invoke" = false ->
  iteration l s =
    (Return (nth_error (logScanner s) 1),
     mkState st (skipn 2 (logScanner s)) (emitted s) (decoded s)).
Proof.
  intros Hst Hc Hi.
  rewrite (iteration_consumed _ decode _ _ _ _ _ Hst Hc Hi).
  now destruct (logScanner s) as [|d [|d' sc]].
Qed.

(** C3, amended.  For every system-classified line whose head starts
    with the invocation marker of the target ProgramId (the target, not
    the current top of the stack), the extractor pushes the target
    ProgramId, provided it is not the empty string; this rule is the
    first one checked and wins over the placeholder rule, whose test the
    head passes too. *)
Theorem target_invoke_pushes_target (l : string) (s : State)
        (st : list string) (top : string) :
  execution s = st ++ [top] ->
  programId <> ""%string ->
  top <> programId \/ startsWith l "Program log:" = false ->
  startsWith (split_colon_0 l) ("Program " ++ programId ++ " invoke") = true ->
  handleSystemLog l = (Some programId, false)
  /\ includes (split_colon_0 l) "invoke" = true
  /\ iteration l s =
       (Return (hd_error (logScanner s)),
        mkState (st ++ [top; programId]) (tl (logScanner s))
                (emitted s) (decoded s)).
Proof.
  intros Hst Hne Hsys Hl.
  assert (Hh : handleSystemLog l = (Some programId, false)).
  { unfold handleSystemLog. now rewrite Hl. }
  split; [exact Hh | split; [now apply (startsWith_invoke_includes programId)|]].
  rewrite (iteration_system _ decode _ _ _ _ _ Hst Hsys), Hh.
  unfold pushed. simpl.
  destruct (String.eqb_spec programId ""); [now elim Hne|]. simpl.
  now rewrite Hst, <- app_assoc.
Qed.

(** C5, amended.  For every target ProgramId other than the literal
    value of the placeholder, a line met while a placeholder frame is on
    top of the stack is never classified as target-owned: it goes to the
    system classification, the decoder is not called and no event is
    emitted. *)
Theorem placeholder_frame_is_not_target (l : string) (s : State)
        (st : list string) :
  programId <> "cpi"%string ->
  execution s = st ++ ["cpi"%string] ->
  handleLog l s = (Return (None, handleSystemLog l), s)
  /\ emitted (snd (iteration l s)) = emitted s
  /\ decoded (snd (iteration l s)) = decoded s.
Proof.
  intros Hne Hst. split.
  - unfold handleLog, bind, execution_program. rewrite Hst, program_snoc.
    destruct (String.eqb_spec "cpi" programId) as [E|_]; [|reflexivity].
    now elim Hne.
  - assert (Hsys : "cpi"%string <> programId
                   \/ startsWith l "Program log:" = false)
      by (left; congruence).
    rewrite (iteration_system _ decode _ _ _ _ _ Hst Hsys).
    now destruct (handleSystemLog l) as [np [|]].
Qed.

(** C6.  For every list of logs, the events emitted are in the order of
    the lines they come from, and a line gives one event at most: the
    events can be matched with strictly increasing positions of the
    list, each holding a program log line whose payload decodes to the
    event. *)
Theorem parseLogs_preserves_order (logs : list string) :
  exists idx : list nat,
    StronglySorted lt idx
    /\ Forall2 (fun i e => exists l, nth_error logs i = Some l
                                     /\ emits Event decode l e)
               idx (emitted (snd (parseLogs logs))).
Proof.
  apply sourced_positions.
  destruct (exec_Program " invoke" (toString (hd_error logs))) as [x|] eqn:E.
  - destruct logs as [|l rest]; [discriminate E|]. simpl in E.
    rewrite (parseLogs_enter _ _ _ _ _ _ E).
    match goal with |- context [while ?f ?g ?s1] =>
      destruct (while_sourced Event decode programId f g s1)
        as (es & -> & Hes) end.
    rewrite pending_hd_tl in Hes. now apply sourced_skip.
  - rewrite (parseLogs_malformed _ _ _ _ E). apply sourced_none.
Qed.

(** C7, amended.  An event is emitted only by a turn that finds the
    target ProgramId on top of the stack; and for every target other
    than the literal value of the placeholder and every list of logs in
    no line of which the target occurs, no event is emitted (and the
    decoder is never called). *)
Theorem events_only_under_target :
  (forall (l : string) (s : State),
      emitted (snd (iteration l s)) <> emitted s ->
      ExecutionContext.program (execution s) = Return programId)
  /\ (programId <> "cpi"%string ->
      forall logs : list string,
        Forall (fun l => includes l programId = false) logs ->
        emitted (snd (parseLogs logs)) = []
        /\ decoded (snd (parseLogs logs)) = []).
Proof.
  split.
  - intros l s Hem.
    destruct (turn_cases Event programId l s)
      as [H | [(st & H & Hl) | (st & top & H & Hs)]].
    + rewrite (iteration_empty _ _ _ _ _ H) in Hem. now elim Hem.
    + rewrite H. apply program_snoc.
    + rewrite (iteration_system _ decode _ _ _ _ _ H Hs) in Hem.
      destruct (handleSystemLog l) as [np [|]]; now elim Hem.
  - intros Hne logs Hlogs.
    apply (parseLogs_rule Event decode programId
             (fun log s =>
                Forall (fun p => p <> programId) (execution s)
                /\ emitted s = [] /\ decoded s = []
                /\ Forall (fun l => includes l programId = false)
                          (pending log s))
             (fun _ s => emitted s = [] /\ decoded s = [])).
    + now intros s (_ & He & Hd & _).
    + intros l s (Hex & He & Hd & Hp). simpl in Hp.
      apply Forall_cons_iff in Hp as [Hl Hsc].
      assert (Htl : Forall (fun l => includes l programId = false)
                           (tl (logScanner s)))
        by (destruct (logScanner s); [constructor | now inversion Hsc]).
      destruct (turn_cases Event programId l s)
        as [H | [(st & H & _) | (st & top & H & Hs)]].
      * now rewrite (iteration_empty _ _ _ _ _ H).
      * rewrite H in Hex. apply Forall_app in Hex as [_ Hex].
        inversion Hex; subst. congruence.
      * rewrite (iteration_system _ decode _ _ _ _ _ H Hs).
        destruct (handleSystemLog_cases programId l)
          as [(H1 & _) | [(_ & _ & ->) | [(_ & _ & ->) | (_ & _ & ->)]]].
        -- apply startsWith_invoke_target in H1. congruence.
        -- rewrite pending_hd_tl. unfold pushed. simpl.
           repeat split; try assumption.
           apply Forall_app. split; [exact Hex|]. constructor; [|constructor].
           congruence.
        -- rewrite pending_hd_tl. unfold pushed. simpl.
           repeat split; try assumption.
           rewrite H, removelast_last. rewrite H in Hex.
           now apply Forall_app in Hex.
        -- rewrite pending_hd_tl. unfold pushed. simpl.
           now repeat split.
    + now intros _.
    + intros l rest x -> Hx. rewrite pending_hd_tl.
      apply Forall_cons_iff in Hlogs as [Hl Hrest].
      repeat split; try reflexivity; [|exact Hrest].
      constructor; [|constructor]. intros ->.
      apply exec_Program_includes in Hx. congruence.
Qed.

(** C8.  Extraction throws the [TypeError] of a malformed log stream
    exactly when the list is empty or its first line does not match the
    invocation pattern; it then has read the first line only, has emitted
    no event and has not called the decoder.  When the first line does
    match, the stack starts as the single captured program, the capture
    being the longest possible one. *)
Theorem malformed_log_stream (logs : list string) :
  (fst (parseLogs logs) = Throw TypeError
   <-> logs = []
       \/ exists l rest, logs = l :: rest
                         /\ forall x, ~ matches_Program " invoke" l x)
  /\ (fst (parseLogs logs) = Throw TypeError ->
      snd (parseLogs logs) = mkState [] (tl logs) [] [])
  /\ (forall l rest x,
        logs = l :: rest -> matches_Program " invoke" l x ->
        exists y,
          ExecutionContext.new (Some l) = Return [y]
          /\ matches_Program " invoke" l y
          /\ String.length x <= String.length y
          /\ parseLogs logs =
               while (S (S (List.length rest))) (hd_error rest)
                     (mkState [y] (tl rest) [] [])).
Proof.
  assert (Hthrow : fst (parseLogs logs) = Throw TypeError ->
                   exec_Program " invoke" (toString (hd_error logs)) = None
                   /\ snd (parseLogs logs) = mkState [] (tl logs) [] []).
  { apply (parseLogs_rule Event decode programId (fun _ _ => True)
             (fun o s => o = Throw TypeError ->
                exec_Program " invoke" (toString (hd_error logs)) = None
                /\ s = mkState [] (tl logs) [] [])); try easy.
    intros l s _.
    destruct (iteration_result Event decode programId l s)
      as [[_ E] | [_ (log' & s' & E & _)]]; now rewrite E. }
  split; [split|split].
  - intros H. apply Hthrow in H as [H _].
    destruct logs as [|l rest]; [now left | right].
    exists l, rest. split; [reflexivity | now apply exec_Program_None].
  - intros [-> | (l & rest & -> & H)]; [reflexivity|].
    apply exec_Program_None in H. now rewrite parseLogs_malformed.
  - intros H. now apply Hthrow in H.
  - intros l rest x -> Hx.
    destruct (exec_Program_complete _ _ _ Hx) as (y & Hy & Hlen).
    exists y. unfold ExecutionContext.new. simpl. rewrite Hy.
    repeat split; try assumption.
    + now apply exec_Program_sound.
    + now apply parseLogs_enter.
Qed.

(** C9.  The end of the stream is met without any look at the stack: the
    loop returns normally whatever the depth of the stack.  An extraction
    that ends with a stack that is not empty has ended normally; and an
    extraction whose first line opens the stream and whose other lines
    hold no completion line ends normally with all its frames open. *)
Theorem open_frames_tolerated_at_end_of_stream :
  (forall (fuel : nat) (s : State), while (S fuel) None s = (Return tt, s))
  /\ (forall logs : list string,
        execution (snd (parseLogs logs)) <> [] ->
        fst (parseLogs logs) = Return tt)
  /\ (forall (l : string) (rest : list string),
        exec_Program " invoke" l <> None ->
        Forall (fun l' => exec_Program " consumed " (split_colon_0 l') = None)
               rest ->
        fst (parseLogs (l :: rest)) = Return tt
        /\ 1 <= List.length (execution (snd (parseLogs (l :: rest))))).
Proof.
  split; [reflexivity | split].
  - intros logs.
    apply (parseLogs_rule Event decode programId (fun _ _ => True)
             (fun o s => execution s <> [] -> o = Return tt)); try easy.
    intros l s _.
    destruct (iteration_result Event decode programId l s)
      as [[H E] | [_ (log' & s' & E & _)]]; now rewrite E.
  - intros l rest Hl Hrest.
    apply (parseLogs_rule Event decode programId
             (fun log s =>
                execution s <> []
                /\ Forall (fun l' => exec_Program " consumed "
                                       (split_colon_0 l') = None)
                          (pending log s))
             (fun o s => o = Return tt /\ 1 <= List.length (execution s))).
    + intros s [H _]. split; [reflexivity|].
      destruct (execution s); [now elim H | simpl; lia].
    + intros l0 s [Hex Hp]. simpl in Hp.
      apply Forall_cons_iff in Hp as [Hl0 Hsc].
      destruct (turn_cases Event programId l0 s)
        as [H | [(st & H & Hpl) | (st & top & H & Hs)]].
      * now elim Hex.
      * rewrite (iteration_program _ _ _ _ _ _ H Hpl), pending_hd_tl.
        now split.
      * rewrite (iteration_system _ decode _ _ _ _ _ H Hs).
        destruct (handleSystemLog_cases programId l0)
          as [(_ & ->) | [(_ & _ & ->) | [(_ & H3 & _) | (_ & _ & ->)]]];
          [| | now elim H3 |]; rewrite pending_hd_tl; unfold pushed;
          (split; [|exact Hsc]);
          destruct (truthy _); try assumption;
          intros E; now apply app_eq_nil in E as [_ E].
    + intros E. now elim Hl.
    + intros l0 rest0 x [= <- <-] Hx. rewrite pending_hd_tl.
      split; [discriminate | exact Hrest].
Qed.

(** C10.  A scanner that is exhausted reports the end of the stream at
    every further call and stays exhausted; reading from it never throws
    and changes nothing.  When a completion line is the last line of the
    stream, the line dropped after it is this report: the turn ends
    normally and the loop returns. *)
Theorem consumed_as_last_line :
  (forall n : nat,
      let logs := Nat.iter n (fun logs => snd (LogScanner.next logs)) [] in
      LogScanner.next logs = (None, []))
  /\ (forall s : State,
        logScanner s = [] -> logScanner_next Event s = (Return None, s))
  /\ (forall (l : string) (s : State) (st : list string) (top : string)
             (fuel : nat),
        execution s = st ++ [top] ->
        logScanner s = [] ->
        exec_Program " consumed " (split_colon_0 l) <> None ->
        includes (split_colon_0 l) "invoke" = false ->
        iteration l s = (Return None, mkState st [] (emitted s) (decoded s))
        /\ while (S (S fuel)) (Some l) s =
             (Return tt, mkState st [] (emitted s) (decoded s))).
Proof.
  split; [|split].
  - intros n. assert (H : Nat.iter n (fun logs => snd (LogScanner.next logs))
                                   [] = [])
      by (induction n as [|n IH]; simpl; [|rewrite IH]; reflexivity).
    simpl. now rewrite H.
  - intros [ex sc em de]. simpl. intros ->. reflexivity.
  - intros l s st top fuel Hst Hsc Hc Hi.
    assert (E : iteration l s
                = (Return None, mkState st [] (emitted s) (decoded s)))
      by (rewrite (iteration_consumed _ decode _ _ _ _ _ Hst Hc Hi), Hsc;
          reflexivity).
    split; [exact E|]. simpl. unfold bind. now rewrite E.
Qed.

End Properties.

(** ** Scenarios *)

Section Scenarios.

Import Js.

Local Open Scope string_scope.

(** The first scenario of the specification: the event of the target is
    emitted, and the completion line of the root program empties the
    stack. *)
Example parseLogs_logs_T1 :
  parseLogs string decode_every "T1" logs_T1
  = (Return tt, mkState [] [] ["hello"] ["hello"]).
Proof. reflexivity. Qed.

(** A nested program logs out of sight of the target. *)
Example parseLogs_nested_program :
  parseLogs string decode_every "T1"
    ["Program T1 invoke [1]"; "Program T2 invoke [2]"; "Program log: hidden";
     "Program T2 consumed 50 units"; "Program T2 success";
     "Program T1 consumed 200 units"; "Program T1 success"]
  = (Return tt, mkState [] [] [] []).
Proof. reflexivity. Qed.

(** A completion line with no open invocation. *)
Example parseLogs_extra_completion :
  parseLogs string decode_every "T1"
    ["Program T1 invoke [1]"; "Program T1 consumed 10 units";
     "Program T1 success"; "Program T1 consumed 20 units"]
  = (Throw AssertionError, mkState [] [] [] []).
Proof. reflexivity. Qed.

(** C1, as stated, fails: [pop] on a stack of one element does not throw
    but empties the stack, and the extraction of the logs of T1 ends
    normally with an empty stack. *)
Lemma pop_on_single_frame_counterexample :
  ExecutionContext.pop ["T1"] = Return []
  /\ ExecutionContext.pop ["T1"] <> Throw AssertionError
  /\ parseLogs string decode_every "T1" logs_T1
     = (Return tt, mkState [] [] ["hello"] ["hello"]).
Proof. repeat split. discriminate. Qed.

(** The amended C1 on the stack of the root program alone. *)
Lemma pop_throws_on_empty_stack_only_witness :
  ExecutionContext.pop ["T1"] = Return []
  /\ exists log' s',
       iteration string decode_every "T1" "Program T1 success"
                 (mkState ["T1"] [] [] []) = (Return log', s').
Proof.
  destruct (pop_throws_on_empty_stack_only string decode_every "T1" ["T1"])
    as (_ & Hpop & Hturn).
  split.
  - apply (Hpop "T1"). reflexivity.
  - apply (Hturn "Program T1 success" (mkState ["T1"] [] [] []));
      [reflexivity | discriminate].
Defined.

(** C2, as stated, fails: the head of this line matches the completion
    pattern, yet the line is taken for an invocation; a frame is pushed
    instead of popped, and the line that follows is the next one read. *)
Lemma consumed_head_with_invoke_counterexample :
  exec_Program " consumed "
               (split_colon_0 "Program A invoke consumed 5 units")
  = Some "A invoke"
  /\ iteration string decode_every "T1" "Program A invoke consumed 5 units"
               (mkState ["A"] ["Program B invoke [2]"] [] [])
     = (Return (Some "Program B invoke [2]"), mkState ["A"; "cpi"] [] [] []).
Proof. split; reflexivity. Qed.

(** The amended C2 on a completion line followed by an invocation line,
    which is dropped. *)
Lemma consumed_pops_and_skips_witness :
  iteration string decode_every "T1" "Program T2 consumed 50 units"
            (mkState ["T1"; "cpi"]
                     ["Program T1 invoke [2]"; "Program T1 success"] [] [])
  = (Return (Some "Program T1 success"), mkState ["T1"] [] [] []).
Proof.
  apply (consumed_pops_and_skips string decode_every "T1"
           "Program T2 consumed 50 units"
           (mkState ["T1"; "cpi"]
                    ["Program T1 invoke [2]"; "Program T1 success"] [] [])
           ["T1"] "cpi");
    [reflexivity | vm_compute; discriminate | reflexivity].
Defined.

(** C3, as stated, fails: the head of this line is the invocation marker
    of the current top of the stack, and the placeholder is pushed, not
    the target. *)
Lemma current_executor_invoke_counterexample :
  ExecutionContext.program ["X"] = Return "X"
  /\ startsWith (split_colon_0 "Program X invoke [2]")
                ("Program " ++ "X" ++ " invoke") = true
  /\ iteration string decode_every "T1" "Program X invoke [2]"
               (mkState ["X"] [] [] [])
     = (Return None, mkState ["X"; "cpi"] [] [] []).
Proof. repeat split. Qed.

(** The amended C3 on an invocation of the target under another
    program. *)
Lemma target_invoke_pushes_target_witness :
  iteration string decode_every "T1" "Program T1 invoke [2]"
            (mkState ["X"] [] [] [])
  = (Return None, mkState ["X"; "T1"] [] [] []).
Proof.
  apply (target_invoke_pushes_target string decode_every "T1"
           "Program T1 invoke [2]" (mkState ["X"] [] [] []) [] "X");
    [reflexivity | discriminate | left; discriminate | reflexivity].
Defined.

(** C4: the marker tested is "Program log:", without the blank, while
    [LOG_START_INDEX] counts the blank.  This line of the target does not
    start with "Program log: "; it is decoded all the same, and its
    payload loses its first character. *)
Theorem program_log_marker_without_blank :
  startsWith "Program log:hello" "Program log: " = false
  /\ parseLogs string decode_every "T1"
               ["Program T1 invoke [1]"; "Program log:hello"]
     = (Return tt, mkState ["T1"] [] ["ello"] ["ello"]).
Proof. split; reflexivity. Qed.

(** C5, as stated, fails: with the literal value of the placeholder for
    target, the line met under the placeholder frame of another program
    is decoded and its event emitted. *)
Lemma placeholder_equal_to_target_counterexample :
  iteration string decode_every "cpi" "Program Y invoke [2]"
            (mkState ["X"] ["Program log: hi"] [] [])
  = (Return (Some "Program log: hi"), mkState ["X"; "cpi"] [] [] [])
  /\ handleLog string decode_every "cpi" "Program log: hi"
               (mkState ["X"; "cpi"] [] [] [])
     = (Return (Some "hi", (None, false)),
        mkState ["X"; "cpi"] [] [] ["hi"])
  /\ parseLogs string decode_every "cpi"
               ["Program X invoke [1]"; "Program Y invoke [2]";
                "Program log: hi"]
     = (Return tt, mkState ["X"; "cpi"] [] ["hi"] ["hi"]).
Proof. repeat split. Qed.

(** The amended C5 on a program log line under a placeholder frame. *)
Lemma placeholder_frame_is_not_target_witness :
  handleLog string decode_every "T1" "Program log: hi"
            (mkState ["X"; "cpi"] [] [] [])
  = (Return (None, (None, false)), mkState ["X"; "cpi"] [] [] []).
Proof.
  apply (placeholder_frame_is_not_target string decode_every "T1"
           "Program log: hi" (mkState ["X"; "cpi"] [] [] []) ["X"]);
    [discriminate | reflexivity].
Defined.

(** C7, as stated, fails: the target occurs in no line of this list, and
    an event is emitted. *)
Lemma target_absent_from_log_counterexample :
  Forall (fun l => includes l "cpi" = false)
         ["Program A invoke [1]"; "Program B invoke [2]"; "Program log: e"]
  /\ emitted (snd (parseLogs string decode_every "cpi"
                     ["Program A invoke [1]"; "Program B invoke [2]";
                      "Program log: e"]))
     = ["e"].
Proof. split; [repeat constructor | reflexivity]. Qed.

(** The amended C7 on a turn that emits, and on the logs above with a
    target that they do not mention. *)
Lemma events_only_under_target_witness :
  ExecutionContext.program ["T1"] = Return "T1"
  /\ emitted (snd (parseLogs string decode_every "T1"
                     ["Program A invoke [1]"; "Program B invoke [2]";
                      "Program log: e"])) = []
  /\ decoded (snd (parseLogs string decode_every "T1"
                     ["Program A invoke [1]"; "Program B invoke [2]";
                      "Program log: e"])) = [].
Proof.
  destruct (events_only_under_target string decode_every "T1")
    as [Hturn Hlogs].
  split.
  - apply (Hturn "Program log: hi" (mkState ["T1"] [] [] [])).
    discriminate.
  - apply Hlogs; [discriminate | repeat constructor].
Defined.

(** C8 on a stream that the target opens. *)
Lemma malformed_log_stream_witness :
  exists y,
    ExecutionContext.new (Some "Program T1 invoke [1]") = Return [y]
    /\ matches_Program " invoke" "Program T1 invoke [1]" y
    /\ String.length "T1" <= String.length y
    /\ parseLogs string decode_every "T1" ["Program T1 invoke [1]"]
       = while string decode_every "T1" 2 None (mkState [y] [] [] []).
Proof.
  apply (proj2 (proj2 (malformed_log_stream string decode_every "T1"
                         ["Program T1 invoke [1]"]))
           "Program T1 invoke [1]" [] "T1"); [reflexivity|].
  exists " [1]". repeat split.
Defined.

(** C9 on a stream of three invocations and no completion. *)
Lemma open_frames_tolerated_at_end_of_stream_witness :
  fst (parseLogs string decode_every "T1"
         ["Program T1 invoke [1]"; "Program T2 invoke [2]";
          "Program T3 invoke [3]"]) = Return tt
  /\ (fst (parseLogs string decode_every "T1"
             ["Program T1 invoke [1]"; "Program T2 invoke [2]";
              "Program T3 invoke [3]"]) = Return tt
      /\ 1 <= List.length
                (execution
                   (snd (parseLogs string decode_every "T1"
                           ["Program T1 invoke [1]"; "Program T2 invoke [2]";
                            "Program T3 invoke [3]"])))).
Proof.
  destruct (open_frames_tolerated_at_end_of_stream string decode_every "T1")
    as (_ & Hopen & Hnone).
  split.
  - apply Hopen. vm_compute. discriminate.
  - apply Hnone; [vm_compute; discriminate | repeat constructor].
Defined.

(** The three frames of the last extraction are open at its end. *)
Example parseLogs_open_frames :
  parseLogs string decode_every "T1"
    ["Program T1 invoke [1]"; "Program T2 invoke [2]";
     "Program T3 invoke [3]"]
  = (Return tt, mkState ["T1"; "cpi"; "cpi"] [] [] []).
Proof. reflexivity. Qed.

(** C10 on the completion line of the root program, read last. *)
Lemma consumed_as_last_line_witness :
  iteration string decode_every "T1" "Program T1 consumed 10 units"
            (mkState ["T1"] [] [] [])
  = (Return None, mkState [] [] [] [])
  /\ while string decode_every "T1" 2 (Some "Program T1 consumed 10 units")
           (mkState ["T1"] [] [] [])
     = (Return tt, mkState [] [] [] []).
Proof.
  apply (proj2 (proj2 (consumed_as_last_line string decode_every "T1"))
           "Program T1 consumed 10 units" (mkState ["T1"] [] [] [])
           [] "T1" 0);
    [reflexivity | reflexivity | vm_compute; discriminate | reflexivity].
Defined.

End Scenarios.

(** ** Further properties: one extraction *)

Section Extraction.

Import Js.

Variable Event : Type.
Variable decode : string -> option Event.
Variable programId : string.

Local Abbreviation State := (State Event).
Local Abbreviation iteration := (iteration Event decode programId).
Local Abbreviation while := (while Event decode programId).
Local Abbreviation parseLogs := (parseLogs Event decode programId).
Local Abbreviation handleSystemLog := (handleSystemLog programId).
Local Abbreviation decodes := (decodes Event decode).
Local Abbreviation turns := (turns Event decode programId).
Local Abbreviation opens := (opens programId).
Local Abbreviation closes := (closes programId).
Local Abbreviation balanced := (balanced programId).

(** What a turn does to the stack and to the scanner, whoever is on top
    of the stack. *)
Lemma iteration_frames (l : string) (s : State) (st : list string)
      (top : string) :
  execution s = st ++ [top] ->
  exists em de,
    iteration l s =
      if closes l
      then (Return (hd_error (tl (logScanner s))),
            mkState (removelast
                       (pushed (execution s) (fst (handleSystemLog l))))
                    (tl (tl (logScanner s))) em de)
      else (Return (hd_error (logScanner s)),
            mkState (pushed (execution s) (fst (handleSystemLog l)))
                    (tl (logScanner s)) em de).
Proof.
  intros Hst. unfold closes.
  destruct (turn_cases Event programId l s)
    as [H | [(st' & H & Hl) | (st' & top' & H & Hs)]].
  - rewrite Hst in H. now destruct st.
  - rewrite (iteration_program _ _ _ _ _ _ H Hl).
    rewrite (handleSystemLog_Program_log programId _ Hl). simpl.
    now do 2 eexists.
  - rewrite (iteration_system _ decode _ _ _ _ _ H Hs).
    destruct (handleSystemLog l) as [np [|]]; simpl; now do 2 eexists.
Qed.

(** The loop goes on after a turn that ends normally, and throws what a
    turn throws. *)
Lemma while_Return (fuel : nat) (l : string) (s s' : State)
      (log' : option string) :
  iteration l s = (Return log', s') ->
  while (S fuel) (Some l) s = while fuel log' s'.
Proof. intros H. simpl. unfold bind. now rewrite H. Qed.

Lemma while_Throw (fuel : nat) (l : string) (s s' : State) (e : Error) :
  iteration l s = (Throw e, s') ->
  while (S fuel) (Some l) s = (Throw e, s').
Proof. intros H. simpl. unfold bind. now rewrite H. Qed.

(** X1.  [parseLogs] ends in one of three ways: it returns with every
    line read, it throws the [TypeError] of the constructor, or it throws
    the failed assertion, the stack being empty. *)
Theorem parseLogs_outcomes (logs : list string) :
  (fst (parseLogs logs) = Return tt
   /\ logScanner (snd (parseLogs logs)) = [])
  \/ (fst (parseLogs logs) = Throw TypeError
      /\ exec_Program " invoke" (toString (hd_error logs)) = None)
  \/ (fst (parseLogs logs) = Throw AssertionError
      /\ execution (snd (parseLogs logs)) = []
      /\ exec_Program " invoke" (toString (hd_error logs)) <> None).
Proof.
  apply (parseLogs_rule Event decode programId
           (fun log s =>
              (log = None -> logScanner s = [])
              /\ exec_Program " invoke" (toString (hd_error logs)) <> None)
           (fun o s =>
              (o = Return tt /\ logScanner s = [])
              \/ (o = Throw TypeError
                  /\ exec_Program " invoke" (toString (hd_error logs)) = None)
              \/ (o = Throw AssertionError /\ execution s = []
                  /\ exec_Program " invoke" (toString (hd_error logs))
                     <> None))).
  - intros s [H _]. left. now split; [|apply H].
  - intros l s [_ Hx].
    assert (Hnil : forall sc : list string,
               hd_error sc = None -> tl sc = [])
      by (now intros [|? ?]).
    destruct (turn_cases Event programId l s)
      as [H | [(st & H & Hl) | (st & top & H & Hs)]].
    + rewrite (iteration_empty _ _ _ _ _ H). right. right. now repeat split.
    + rewrite (iteration_program _ _ _ _ _ _ H Hl). simpl.
      split; [apply Hnil | exact Hx].
    + rewrite (iteration_system _ decode _ _ _ _ _ H Hs).
      destruct (handleSystemLog l) as [np [|]]; simpl;
        (split; [apply Hnil | exact Hx]).
  - intros H. right. left. now split.
  - intros l rest x -> Hx. simpl. split; [now intros H; destruct rest|].
    congruence.
Qed.


Lemma Forall_removelast (A : Type) (P : A -> Prop) (ls : list A) :
  Forall P ls -> Forall P (removelast ls).
Proof.
  induction 1 as [|a ls Ha _ IH]; [constructor|].
  simpl. destruct ls; [constructor | now constructor].
Qed.

(** X3.  At the end of an extraction the stack is empty, or it is the
    program captured from the first line under frames each of which is
    the target or the placeholder. *)
Theorem stack_is_root_under_frames (logs : list string) :
  execution (snd (parseLogs logs)) = []
  \/ exists root frames,
       exec_Program " invoke" (toString (hd_error logs)) = Some root
       /\ execution (snd (parseLogs logs)) = root :: frames
       /\ Forall (fun f => f = programId \/ f = "cpi"%string) frames.
Proof.
  apply (parseLogs_rule Event decode programId
           (fun _ s =>
              execution s = []
              \/ exists root frames,
                   exec_Program " invoke" (toString (hd_error logs))
                   = Some root
                   /\ execution s = root :: frames
                   /\ Forall (fun f => f = programId \/ f = "cpi"%string)
                             frames)
           (fun _ s =>
              execution s = []
              \/ exists root frames,
                   exec_Program " invoke" (toString (hd_error logs))
                   = Some root
                   /\ execution s = root :: frames
                   /\ Forall (fun f => f = programId \/ f = "cpi"%string)
                             frames)); try easy.
  - intros l s Hs.
    destruct (turn_cases Event programId l s)
      as [H | [(st & H & Hl) | (st & top & H & Hsys)]].
    + now rewrite (iteration_empty _ _ _ _ _ H).
    + now rewrite (iteration_program _ _ _ _ _ _ H Hl).
    + rewrite (iteration_system _ decode _ _ _ _ _ H Hsys).
      destruct Hs as [Hs | (root & frames & Hroot & Hs & Hf)];
        [rewrite H in Hs; now destruct st|].
      assert (Hpush : forall f, f = programId \/ f = "cpi"%string ->
                 exists frames',
                   execution s ++ [f] = root :: frames'
                   /\ Forall (fun f => f = programId \/ f = "cpi"%string)
                             frames').
      { intros f Hf'. exists (frames ++ [f]). rewrite Hs. split; [easy|].
        apply Forall_app. split; [exact Hf | now constructor]. }
      destruct (handleSystemLog_cases programId l)
        as [(_ & ->) | [(_ & _ & ->) | [(_ & _ & ->) | (_ & _ & ->)]]];
        unfold pushed; simpl.
      * destruct (negb (programId =? "")%string);
          [|right; now exists root, frames].
        destruct (Hpush programId) as (fs & E & Hfs); [now left|].
        right. now exists root, fs.
      * destruct (Hpush "cpi"%string) as (fs & E & Hfs); [now right|].
        right. now exists root, fs.
      * rewrite Hs. destruct frames as [|f frames]; [now left | right].
        exists root, (removelast (f :: frames)).
        repeat split; [exact Hroot | now apply Forall_removelast].
      * right. now exists root, frames.
  - intros _. now left.
  - intros l rest x -> Hx. right. exists x, []. now repeat split.
Qed.

(** X9.  A line that starts with the marker of a program log never moves
    the stack, whoever is on top of it and whatever the message says:
    the turn ends normally, the stack is as it was and the scanner has
    advanced by one line. *)
Theorem program_log_keeps_stack (l : string) (s : State) :
  execution s <> [] ->
  startsWith l "Program log:" = true ->
  exists em de,
    iteration l s =
      (Return (hd_error (logScanner s)),
       mkState (execution s) (tl (logScanner s)) em de).
Proof.
  intros Hne Hl.
  destruct (stack_cases (execution s)) as [H | (st & top & H)];
    [now elim Hne|].
  destruct (iteration_frames l s st top H) as (em & de & E).
  unfold closes in E.
  rewrite (handleSystemLog_Program_log programId _ Hl) in E. simpl in E.
  now exists em, de.
Qed.

(** X10.  When the line after the first one is a completion line, it
    pops the root program; a fourth line, such as the invocation of a
    second instruction of the transaction, is then met with an empty
    stack, and the extraction throws without having emitted anything. *)
Theorem line_after_root_completion_throws (root x c d l : string)
        (rest : list string) :
  exec_Program " invoke" root = Some x ->
  exec_Program " consumed " (split_colon_0 c) <> None ->
  includes (split_colon_0 c) "invoke" = false ->
  parseLogs (root :: c :: d :: l :: rest)
  = (Throw AssertionError, mkState [] rest [] []).
Proof.
  intros Hx Hc Hi. rewrite (parseLogs_enter _ _ _ _ _ _ Hx).
  change (hd_error (c :: d :: l :: rest)) with (Some c).
  change (tl (c :: d :: l :: rest)) with (d :: l :: rest).
  rewrite (while_Return _ _ _ _ _
             (iteration_consumed _ decode programId c
                (mkState [x] (d :: l :: rest) [] []) [] x eq_refl Hc Hi)).
  apply while_Throw. now apply iteration_empty.
Qed.

End Extraction.

(** ** Further properties: the objects and the discipline of the stack *)

Section Discipline.

Import Js.

Variable Event : Type.
Variable decode : string -> option Event.
Variable programId : string.

Local Abbreviation State := (State Event).
Local Abbreviation iteration := (iteration Event decode programId).
Local Abbreviation while := (while Event decode programId).
Local Abbreviation parseLogs := (parseLogs Event decode programId).
Local Abbreviation handleSystemLog := (handleSystemLog programId).
Local Abbreviation turns := (turns Event decode programId).
Local Abbreviation opens := (opens programId).
Local Abbreviation closes := (closes programId).
Local Abbreviation balanced := (balanced programId).

Lemma turns_app (k1 k2 : nat) :
  forall (a : option string) (s : State) (b : option string) (s1 : State)
         (c : option string * State),
    turns k1 a s = Some (b, s1) -> turns k2 b s1 = Some c ->
    turns (k1 + k2) a s = Some c.
Proof.
  induction k1 as [|k1 IH]; intros a s b s1 c H1 H2; simpl in *.
  - now injection H1 as -> ->.
  - destruct a as [l|]; [|discriminate].
    destruct (iteration l s) as [[log'| |] s']; try discriminate.
    now apply (IH _ _ b s1).
Qed.

Lemma while_turns (k fuel : nat) :
  forall (log : option string) (s : State) (log' : option string)
         (s' : State),
    turns k log s = Some (log', s') ->
    while (k + fuel) log s = while fuel log' s'.
Proof.
  induction k as [|k IH]; intros log s log' s' H; simpl in *.
  - now injection H as -> ->.
  - destruct log as [l|]; [|discriminate]. unfold bind.
    destruct (iteration l s) as [[log1| |] s1]; try discriminate.
    now apply IH.
Qed.

(** A line does not both open and close. *)
Lemma opens_closes (l : string) :
  (opens l = true -> closes l = false)
  /\ (closes l = true -> opens l = false).
Proof.
  unfold opens, closes.
  destruct (handleSystemLog_cases programId l)
    as [(_ & ->) | [(_ & _ & ->) | [(_ & _ & ->) | (_ & _ & ->)]]];
    simpl; split; congruence.
Qed.

(** The turns of balanced logs, met with a stack that is not empty, end
    normally and leave the stack as they found it. *)
Lemma turns_balanced (ls : list string) :
  balanced ls ->
  forall (rest : list string) (st : list string) (top : string)
         (em : list Event) (de : list string),
  exists k em' de',
    k <= List.length ls
    /\ turns k (hd_error (ls ++ rest))
             (mkState (st ++ [top]) (tl (ls ++ rest)) em de)
       = Some (hd_error rest, mkState (st ++ [top]) (tl rest) em' de').
Proof.
  induction 1 as [|l ls Ho Hc _ IH|o inner c d ls Ho _ IHin Hc _ IH];
    intros rest st top em de.
  - exists 0, em, de. split; [simpl; lia | reflexivity].
  - destruct (iteration_frames Event decode programId l
                (mkState (st ++ [top]) (ls ++ rest) em de) st top eq_refl)
      as (em1 & de1 & E).
    fold (closes l) in E. rewrite Hc in E.
    unfold pushed in E. fold (opens l) in E. rewrite Ho in E. simpl in E.
    destruct (IH rest st top em1 de1) as (k & em' & de' & Hk & Ht).
    exists (S k), em', de'. split; [simpl; lia|].
    simpl. now rewrite E.
  - destruct (opens_closes o) as [Hoc _]. specialize (Hoc Ho).
    destruct (opens_closes c) as [_ Hco]. specialize (Hco Hc).
    set (p := toString (fst (handleSystemLog o))).
    set (inside := c :: d :: ls ++ rest).
    assert (Elist : (o :: inner ++ c :: d :: ls) ++ rest
                    = o :: inner ++ inside).
    { simpl. now rewrite <- app_assoc. }
    rewrite Elist.
    destruct (iteration_frames Event decode programId o
                (mkState (st ++ [top]) (inner ++ inside) em de) st top
                eq_refl) as (em1 & de1 & E1).
    fold (closes o) in E1. rewrite Hoc in E1.
    unfold pushed in E1. fold (opens o) in E1. rewrite Ho in E1.
    simpl in E1. fold p in E1.
    destruct (IHin inside (st ++ [top]) p em1 de1)
      as (k1 & em2 & de2 & Hk1 & Ht1).
    destruct (iteration_frames Event decode programId c
                (mkState ((st ++ [top]) ++ [p]) (d :: ls ++ rest) em2 de2)
                (st ++ [top]) p eq_refl) as (em3 & de3 & E3).
    fold (closes c) in E3. rewrite Hc in E3.
    unfold pushed in E3. fold (opens c) in E3. rewrite Hco in E3.
    simpl in E3. rewrite removelast_last in E3.
    destruct (IH rest st top em3 de3) as (k2 & em' & de' & Hk2 & Ht2).
    exists (S (k1 + S k2)), em', de'. split.
    + simpl. rewrite length_app. simpl. lia.
    + simpl. rewrite E1.
      apply (turns_app k1 (S k2) _ _ _ _ _ Ht1).
      simpl. now rewrite E3.
Qed.

(** X11.  Balanced logs keep the discipline of the stack: met with any
    stack that is not empty, their turns end normally and every frame
    they push is popped by the completion line that answers it, so that
    the stack is found again as it was; and the extraction of a first
    line followed by balanced logs returns with the root program alone
    on the stack. *)
Theorem balanced_logs_restore_stack (ls : list string) :
  balanced ls ->
  (forall (rest : list string) (st : list string) (top : string)
          (em : list Event) (de : list string),
      exists k em' de',
        turns k (hd_error (ls ++ rest))
              (mkState (st ++ [top]) (tl (ls ++ rest)) em de)
        = Some (hd_error rest, mkState (st ++ [top]) (tl rest) em' de'))
  /\ (forall root x : string,
         exec_Program " invoke" root = Some x ->
         exists em de,
           parseLogs (root :: ls) = (Return tt, mkState [x] [] em de)).
Proof.
  intros Hb. split.
  - intros rest st top em de.
    destruct (turns_balanced ls Hb rest st top em de)
      as (k & em' & de' & _ & Ht).
    now exists k, em', de'.
  - intros root x Hx. rewrite (parseLogs_enter _ _ _ _ _ _ Hx).
    destruct (turns_balanced ls Hb [] [] x [] [])
      as (k & em' & de' & Hk & Ht).
    rewrite app_nil_r in Ht. simpl in Ht.
    replace (S (S (List.length ls)))
      with (k + S (S (List.length ls) - k)) by lia.
    rewrite (while_turns _ _ _ _ _ _ Ht).
    now exists em', de'.
Qed.

Lemma append_nil_r' (a : string) : (a ++ "")%string = a.
Proof. induction a as [|x a IH]; simpl; [reflexivity | now rewrite IH]. Qed.

Lemma append_split (x : string) :
  forall y a b : string,
    (x ++ a)%string = (y ++ b)%string ->
    String.length x <= String.length y ->
    exists z, y = (x ++ z)%string /\ a = (z ++ b)%string.
Proof.
  induction x as [|c x IH]; intros y a b H Hlen.
  - now exists y.
  - destruct y as [|c' y]; [simpl in Hlen; lia|].
    simpl in H. injection H as -> H.
    destruct (IH y a b H) as (z & -> & ->); [simpl in Hlen; lia|].
    now exists z.
Qed.

(** The last invocation word of a line is the one that ends the group. *)
Lemma greedy_capture_invoke (x r : string) :
  includes r " invoke" = false ->
  greedy_capture " invoke" (x ++ " invoke" ++ r) = Some x.
Proof.
  intros Hr.
  destruct (greedy_capture_complete " invoke" x r) as (y & Hy & Hlen).
  rewrite Hy. f_equal.
  destruct (greedy_capture_sound _ _ _ Hy) as [r' E].
  destruct (append_split x y _ _ E Hlen) as (z & -> & Ez).
  destruct z as [|c1 [|c2 [|c3 [|c4 [|c5 [|c6 [|c7 z]]]]]]];
    simpl in Ez; try congruence.
  - now rewrite append_nil_r'.
  - injection Ez as E1 E2 E3 E4 E5 E6 E7 Ez. subst.
    pose proof (includes_intro z " invoke" r') as Hi. simpl in Hi.
    congruence.
Qed.

End Discipline.

(** ** Further properties: constructor, scanner and stack *)

Section Parts.

Import Js.

(** X6.  The constructor takes for root program the text between the
    word Program and the last invocation word of the first line: when
    the rest of the line holds no further invocation word, and the line
    no line terminator, the stack starts as that text alone, whatever it
    is made of. *)
Theorem constructor_captures_program (x r : string) :
  dot_star x = true -> dot_star r = true ->
  includes r " invoke" = false ->
  ExecutionContext.new (Some ("Program " ++ x ++ " invoke" ++ r)%string)
  = Return [x].
Proof.
  intros Dx Dr Hr. unfold ExecutionContext.new, exec_Program, toString.
  rewrite (startsWith_app "Program "), (slice_app "Program ").
  rewrite !dot_star_app, Dx, Dr.
  change (dot_star " invoke") with true. cbv [andb].
  now rewrite greedy_capture_invoke.
Qed.

Lemma greedy_capture_None (kw s : string) :
  greedy_capture kw s = None <-> includes s kw = false.
Proof.
  induction s as [|c s IH]; simpl.
  - destruct (startsWith "" kw); split; congruence.
  - destruct (greedy_capture kw s) as [y|].
    + destruct (startsWith (String c s) kw); [split; congruence|].
      split; [discriminate|]. intros H. apply IH in H. discriminate.
    + destruct (startsWith (String c s) kw); [split; congruence|].
      split; intros _; [now apply IH | reflexivity].
Qed.

(** X12.  The constructor throws exactly when its line does not start
    with the word Program and a blank, or holds a line terminator after
    them, or holds no invocation word after them. *)
Theorem constructor_throws_iff (l : string) :
  ExecutionContext.new (Some l) = Throw TypeError
  <-> startsWith l "Program " = false
      \/ dot_star (slice l 8) = false
      \/ includes (slice l 8) " invoke" = false.
Proof.
  unfold ExecutionContext.new, exec_Program, toString.
  change (String.length "Program ") with 8.
  destruct (startsWith l "Program "); [|split; [now left | reflexivity]].
  destruct (dot_star (slice l 8));
    [|split; [right; now left | reflexivity]].
  destruct (greedy_capture " invoke" (slice l 8)) as [y|] eqn:E.
  - split; [discriminate|]. intros [H | [H | H]]; try discriminate.
    apply greedy_capture_None in H. congruence.
  - split; [|reflexivity]. intros _. right. right.
    now apply greedy_capture_None.
Qed.

Lemma iter_tl_skipn (A : Type) (n : nat) (ls : list A) :
  Nat.iter n (@tl A) ls = skipn n ls.
Proof.
  revert ls. induction n as [|n IH]; intros ls; [reflexivity|].
  simpl Nat.iter. rewrite IH. clear IH. revert ls.
  induction n as [|n IH]; intros [|a ls]; try reflexivity.
  simpl skipn at 1. rewrite IH. reflexivity.
Qed.

(** X7.  The scanner yields the lines once each and in their order: its
    call number [n], counted from zero, returns the line of that
    position, or [null] when there is none, and leaves the lines after
    it. *)
Theorem next_yields_lines_in_order (logs : list string) (n : nat) :
  LogScanner.next (Nat.iter n (fun ls => snd (LogScanner.next ls)) logs)
  = (nth_error logs n, skipn (S n) logs).
Proof.
  assert (E : Nat.iter n (fun ls => snd (LogScanner.next ls)) logs
              = skipn n logs).
  { rewrite <- iter_tl_skipn. induction n as [|n IH]; [reflexivity|].
    simpl. rewrite IH, next_eq. reflexivity. }
  rewrite E, next_eq, hd_error_skipn. f_equal.
  rewrite <- !iter_tl_skipn. reflexivity.
Qed.

(** X8.  The stack is last in, first out: after a push the top is the
    program pushed, and a pop gives back the stack as it was before the
    push; neither throws. *)
Theorem push_then_pop (stack : list string) (p : string) :
  ExecutionContext.program (ExecutionContext.push stack p) = Return p
  /\ ExecutionContext.pop (ExecutionContext.push stack p) = Return stack.
Proof. split; [apply program_snoc | apply pop_snoc]. Qed.

End Parts.

(** ** Further properties: two extractions of the same logs *)

Section Decoders.

Import Js.

Variables Event1 Event2 : Type.
Variable decode1 : string -> option Event1.
Variable decode2 : string -> option Event2.
Variable programId : string.

Lemma iteration_decoders (l : string) (s1 : State Event1)
      (s2 : State Event2) :
  execution s1 = execution s2 -> logScanner s1 = logScanner s2 ->
  decoded s1 = decoded s2 ->
  match iteration Event1 decode1 programId l s1,
        iteration Event2 decode2 programId l s2 with
  | (Return log1, s1'), (Return log2, s2') =>
      log1 = log2 /\ execution s1' = execution s2'
      /\ logScanner s1' = logScanner s2' /\ decoded s1' = decoded s2'
  | (Throw e1, s1'), (Throw e2, s2') =>
      e1 = e2 /\ execution s1' = execution s2'
      /\ logScanner s1' = logScanner s2' /\ decoded s1' = decoded s2'
  | _, _ => False
  end.
Proof.
  intros Hex Hsc Hde.
  destruct (turn_cases Event1 programId l s1)
    as [H | [(st & H & Hl) | (st & top & H & Hs)]].
  - rewrite (iteration_empty _ _ _ _ _ H).
    rewrite Hex in H. now rewrite (iteration_empty _ _ _ _ _ H).
  - rewrite (iteration_program _ _ _ _ _ _ H Hl).
    rewrite Hex in H. rewrite (iteration_program _ _ _ _ _ _ H Hl).
    simpl. now rewrite Hsc, Hde, Hex.
  - rewrite (iteration_system _ decode1 _ _ _ _ _ H Hs).
    rewrite Hex in H. rewrite (iteration_system _ decode2 _ _ _ _ _ H Hs).
    destruct (handleSystemLog programId l) as [np [|]]; simpl;
      now rewrite Hsc, Hde, Hex.
Qed.

Lemma while_decoders (fuel : nat) :
  forall (log : option string) (s1 : State Event1) (s2 : State Event2),
    execution s1 = execution s2 -> logScanner s1 = logScanner s2 ->
    decoded s1 = decoded s2 ->
    let r1 := while Event1 decode1 programId fuel log s1 in
    let r2 := while Event2 decode2 programId fuel log s2 in
    fst r1 = fst r2 /\ execution (snd r1) = execution (snd r2)
    /\ logScanner (snd r1) = logScanner (snd r2)
    /\ decoded (snd r1) = decoded (snd r2).
Proof.
  induction fuel as [|fuel IH]; intros log s1 s2 Hex Hsc Hde; simpl.
  - now repeat split.
  - destruct log as [l|]; [|now repeat split]. unfold bind.
    pose proof (iteration_decoders l s1 s2 Hex Hsc Hde) as H.
    destruct (iteration Event1 decode1 programId l s1) as [[log1|e1|] s1'];
      destruct (iteration Event2 decode2 programId l s2)
        as [[log2|e2|] s2']; try easy.
    + destruct H as (-> & H1 & H2 & H3). now apply IH.
    + destruct H as (-> & H1 & H2 & H3). now repeat split.
Qed.

(** X4.  The decoder has no say in the course of an extraction: with any
    two decoders, of any two kinds of events, the extractions of the
    same logs for the same target end the same way, with the same stack,
    and have handed the same payloads to their decoders. *)
Theorem decoder_does_not_steer (logs : list string) :
  let r1 := parseLogs Event1 decode1 programId logs in
  let r2 := parseLogs Event2 decode2 programId logs in
  fst r1 = fst r2 /\ execution (snd r1) = execution (snd r2)
  /\ logScanner (snd r1) = logScanner (snd r2)
  /\ decoded (snd r1) = decoded (snd r2).
Proof.
  destruct (exec_Program " invoke" (toString (hd_error logs))) as [x|] eqn:E.
  - destruct logs as [|l rest]; [discriminate E|]. simpl in E.
    rewrite !(parseLogs_enter _ _ _ _ _ _ E). now apply while_decoders.
  - rewrite !(parseLogs_malformed _ _ _ _ E). now repeat split.
Qed.

End Decoders.

(** ** Further properties: two targets for the same logs *)

Section Targets.

Import Js.

Variable Event : Type.
Variable decode : string -> option Event.

(** With a target that is not the empty string, the lines that open a
    frame are those whose head holds the invocation word. *)
Lemma opens_invoke (programId l : string) :
  programId <> ""%string ->
  opens programId l = includes (split_colon_0 l) "invoke".
Proof.
  intros Hne. unfold opens.
  destruct (handleSystemLog_cases programId l)
    as [(H & ->) | [(_ & H & ->) | [(H & _ & ->) | (H & _ & ->)]]];
    simpl; rewrite ?H; try reflexivity.
  apply startsWith_invoke_includes in H. rewrite H.
  now destruct (String.eqb_spec programId "").
Qed.

(** The lines that close a frame are the same for every target. *)
Lemma closes_consumed (programId l : string) :
  closes programId l
  = negb (includes (split_colon_0 l) "invoke")
    && match exec_Program " consumed " (split_colon_0 l) with
       | Some _ => true
       | None => false
       end.
Proof.
  unfold closes.
  destruct (handleSystemLog_cases programId l)
    as [(H & ->) | [(_ & H & ->) | [(H & Hc & ->) | (H & Hc & ->)]]];
    simpl; rewrite ?H, ?Hc; try reflexivity.
  - apply startsWith_invoke_includes in H. now rewrite H.
  - now destruct (exec_Program " consumed " (split_colon_0 l)).
Qed.

Lemma length_removelast (A : Type) (ls : list A) :
  List.length (removelast ls) = pred (List.length ls).
Proof.
  induction ls as [|a ls IH]; [reflexivity|].
  simpl. destruct ls; [reflexivity|]. simpl in *. now rewrite IH.
Qed.

Lemma length_pushed (programId l : string) (stack : list string) :
  List.length (pushed stack (fst (handleSystemLog programId l)))
  = List.length stack + (if opens programId l then 1 else 0).
Proof.
  unfold pushed, opens.
  destruct (truthy _); [rewrite length_app; reflexivity | lia].
Qed.

Variables programId1 programId2 : string.
Hypothesis target1 : programId1 <> ""%string.
Hypothesis target2 : programId2 <> ""%string.

Lemma iteration_targets (l : string) (s1 s2 : State Event) :
  List.length (execution s1) = List.length (execution s2) ->
  logScanner s1 = logScanner s2 ->
  match iteration Event decode programId1 l s1,
        iteration Event decode programId2 l s2 with
  | (Return log1, s1'), (Return log2, s2') =>
      log1 = log2
      /\ List.length (execution s1') = List.length (execution s2')
      /\ logScanner s1' = logScanner s2'
  | (Throw e1, s1'), (Throw e2, s2') =>
      e1 = e2
      /\ List.length (execution s1') = List.length (execution s2')
      /\ logScanner s1' = logScanner s2'
  | _, _ => False
  end.
Proof.
  intros Hlen Hsc.
  destruct (stack_cases (execution s1)) as [H1 | (st1 & top1 & H1)];
    destruct (stack_cases (execution s2)) as [H2 | (st2 & top2 & H2)].
  - rewrite (iteration_empty _ _ _ _ _ H1), (iteration_empty _ _ _ _ _ H2).
    now repeat split.
  - rewrite H1, H2, length_app in Hlen. simpl in Hlen. lia.
  - rewrite H1, H2, length_app in Hlen. simpl in Hlen. lia.
  - destruct (iteration_frames Event decode programId1 l s1 st1 top1 H1)
      as (em1 & de1 & ->).
    destruct (iteration_frames Event decode programId2 l s2 st2 top2 H2)
      as (em2 & de2 & ->).
    rewrite (closes_consumed programId1), (closes_consumed programId2).
    destruct (_ && _); simpl;
      rewrite ?length_removelast, !length_pushed,
        (opens_invoke _ _ target1), (opens_invoke _ _ target2), Hlen, Hsc;
      now repeat split.
Qed.

Lemma while_targets (fuel : nat) :
  forall (log : option string) (s1 s2 : State Event),
    List.length (execution s1) = List.length (execution s2) ->
    logScanner s1 = logScanner s2 ->
    let r1 := while Event decode programId1 fuel log s1 in
    let r2 := while Event decode programId2 fuel log s2 in
    fst r1 = fst r2
    /\ List.length (execution (snd r1)) = List.length (execution (snd r2))
    /\ logScanner (snd r1) = logScanner (snd r2).
Proof.
  induction fuel as [|fuel IH]; intros log s1 s2 Hlen Hsc; simpl.
  - now repeat split.
  - destruct log as [l|]; [|now repeat split]. unfold bind.
    pose proof (iteration_targets l s1 s2 Hlen Hsc) as H.
    destruct (iteration Event decode programId1 l s1) as [[log1|e1|] s1'];
      destruct (iteration Event decode programId2 l s2)
        as [[log2|e2|] s2']; try easy.
    + destruct H as (-> & H1 & H2). now apply IH.
    + destruct H as (-> & H1 & H2). now repeat split.
Qed.

(** X5.  Whether an extraction throws, and how deep its stack ends, is a
    matter of the logs and not of the target: the extractions of the
    same logs for any two targets, neither the empty string, end the
    same way with stacks of the same depth. *)
Theorem target_does_not_steer_depth (logs : list string) :
  let r1 := parseLogs Event decode programId1 logs in
  let r2 := parseLogs Event decode programId2 logs in
  fst r1 = fst r2
  /\ List.length (execution (snd r1)) = List.length (execution (snd r2))
  /\ logScanner (snd r1) = logScanner (snd r2).
Proof.
  destruct (exec_Program " invoke" (toString (hd_error logs))) as [x|] eqn:E.
  - destruct logs as [|l rest]; [discriminate E|]. simpl in E.
    rewrite !(parseLogs_enter _ _ _ _ _ _ E). now apply while_targets.
  - rewrite !(parseLogs_malformed _ _ _ _ E). now repeat split.
Qed.

End Targets.

(** ** Further properties: truncated logs *)

Section Truncation.

Import Js.

Variable Event : Type.
Variable decode : string -> option Event.
Variable programId : string.

Local Abbreviation State := (State Event).
Local Abbreviation iteration := (iteration Event decode programId).
Local Abbreviation while := (while Event decode programId).
Local Abbreviation parseLogs := (parseLogs Event decode programId).
Local Abbreviation handleSystemLog := (handleSystemLog programId).

(** The loop only adds to the events emitted. *)
Lemma while_appends (fuel : nat) (log : option string) (s : State) :
  exists es, emitted (snd (while fuel log s)) = emitted s ++ es.
Proof.
  destruct (while_sourced Event decode programId fuel log s)
    as (es & E & _).
  now exists es.
Qed.

(** The loop on some lines and the loop on the same lines followed by
    others, started from the same stack and the same events. *)
Lemma while_prefix (fuelA : nat) :
  forall (fuelB : nat) (linesA more : list string) (st : list string)
         (em : list Event) (de : list string),
    fuelA <= fuelB ->
    exists es,
      emitted (snd (while fuelB (hd_error (linesA ++ more))
                          (mkState st (tl (linesA ++ more)) em de)))
      = emitted (snd (while fuelA (hd_error linesA)
                            (mkState st (tl linesA) em de))) ++ es.
Proof.
  induction fuelA as [|fuelA IH];
    intros fuelB linesA more st em de Hfuel.
  - destruct (while_appends fuelB (hd_error (linesA ++ more))
                (mkState st (tl (linesA ++ more)) em de)) as [es E].
    exists es. now rewrite E.
  - destruct fuelB as [|fuelB]; [lia|].
    destruct linesA as [|l linesA].
    { destruct (while_appends (S fuelB) (hd_error ([] ++ more))
                  (mkState st (tl ([] ++ more)) em de)) as [es E].
      exists es. now rewrite E. }
    change (hd_error ((l :: linesA) ++ more)) with (Some l).
    change (tl ((l :: linesA) ++ more)) with (linesA ++ more).
    change (hd_error (l :: linesA)) with (Some l).
    change (tl (l :: linesA)) with linesA.
    set (sA := mkState st linesA em de).
    set (sB := mkState st (linesA ++ more) em de).
    assert (Hfuel' : fuelA <= fuelB) by lia.
    destruct (turn_cases Event programId l sA)
      as [H | [(st' & H & Hl) | (st' & top & H & Hs)]].
    + rewrite (while_Throw _ _ _ _ _ _ _ _
                 (iteration_empty _ decode programId l sA H)).
      rewrite (while_Throw _ _ _ _ _ _ _ _
                 (iteration_empty _ decode programId l sB H)).
      exists []. simpl. now rewrite app_nil_r.
    + rewrite (while_Return _ _ _ _ _ _ _ _
                 (iteration_program _ decode programId l sA st' H Hl)).
      rewrite (while_Return _ _ _ _ _ _ _ _
                 (iteration_program _ decode programId l sB st' H Hl)).
      now apply IH.
    + pose proof (iteration_system _ decode programId l sA st' top H Hs)
        as EA.
      pose proof (iteration_system _ decode programId l sB st' top H Hs)
        as EB.
      destruct (handleSystemLog l) as [np [|]].
      * rewrite (while_Return _ _ _ _ _ _ _ _ EA).
        rewrite (while_Return _ _ _ _ _ _ _ _ EB). simpl.
        destruct linesA as [|d linesA]; [|now apply IH].
        apply (IH fuelB [] (tl more)). exact Hfuel'.
      * rewrite (while_Return _ _ _ _ _ _ _ _ EA).
        rewrite (while_Return _ _ _ _ _ _ _ _ EB).
        now apply IH.
Qed.

(** X13.  Cutting logs short only cuts the events short: the events
    emitted for a list of logs open the events emitted for any longer
    list that starts with it, whether or not either extraction throws. *)
Theorem truncated_logs_give_first_events (logs more : list string) :
  exists es,
    emitted (snd (parseLogs (logs ++ more)))
    = emitted (snd (parseLogs logs)) ++ es.
Proof.
  destruct logs as [|l rest].
  - now exists (emitted (snd (parseLogs ([] ++ more)))).
  - destruct (exec_Program " invoke" l) as [x|] eqn:E.
    + change ((l :: rest) ++ more) with (l :: (rest ++ more)).
      rewrite !(parseLogs_enter _ _ _ _ _ _ E).
      apply while_prefix. rewrite length_app. lia.
    + exists []. change ((l :: rest) ++ more) with (l :: (rest ++ more)).
      now rewrite !parseLogs_malformed.
Qed.

End Truncation.

(** ** Further scenarios *)

Section FurtherScenarios.

Import Js.

Local Open Scope string_scope.


(** X5 on the logs of T1, extracted for T1 and for another program. *)
Lemma target_does_not_steer_depth_witness :
  fst (parseLogs string decode_every "T1" logs_T1)
  = fst (parseLogs string decode_every "T2" logs_T1)
  /\ List.length (execution (snd (parseLogs string decode_every "T1"
                                    logs_T1)))
     = List.length (execution (snd (parseLogs string decode_every "T2"
                                      logs_T1)))
  /\ logScanner (snd (parseLogs string decode_every "T1" logs_T1))
     = logScanner (snd (parseLogs string decode_every "T2" logs_T1)).
Proof.
  apply (target_does_not_steer_depth string decode_every "T1" "T2");
    discriminate.
Defined.

(** X6 on a program whose name holds the invocation word. *)
Lemma constructor_captures_program_witness :
  ExecutionContext.new (Some "Program my invoke r invoke [1]")
  = Return ["my invoke r"].
Proof.
  apply (constructor_captures_program "my invoke r" " [1]"); reflexivity.
Defined.

(** X9 on a message that speaks of an invocation, under another program
    than the target. *)
Lemma program_log_keeps_stack_witness :
  exists em de,
    iteration string decode_every "T1" "Program log: T1 invoke [2]"
              (mkState ["T1"; "cpi"] ["Program T2 success"] [] [])
    = (Return (Some "Program T2 success"),
       mkState ["T1"; "cpi"] [] em de).
Proof.
  apply (program_log_keeps_stack string decode_every "T1"
           "Program log: T1 invoke [2]"
           (mkState ["T1"; "cpi"] ["Program T2 success"] [] []));
    [discriminate | reflexivity].
Defined.

(** X10 on a transaction of two instructions. *)
Lemma line_after_root_completion_throws_witness :
  parseLogs string decode_every "T2"
    ["Program T1 invoke [1]"; "Program T1 consumed 10 units";
     "Program T1 success"; "Program T2 invoke [1]"; "Program log: hello"]
  = (Throw AssertionError, mkState [] ["Program log: hello"] [] []).
Proof.
  apply (line_after_root_completion_throws string decode_every "T2"
           "Program T1 invoke [1]" "T1" "Program T1 consumed 10 units"
           "Program T1 success" "Program T2 invoke [1]"
           ["Program log: hello"]);
    [reflexivity | vm_compute; discriminate | reflexivity].
Defined.

(** X11 on a call of another program that logs, between two lines of the
    target. *)
Lemma balanced_logs_restore_stack_witness :
  exists em de,
    parseLogs string decode_every "T1"
      ["Program T1 invoke [1]"; "Program log: before";
       "Program T2 invoke [2]"; "Program log: hidden";
       "Program T2 consumed 50 units"; "Program T2 success";
       "Program log: after"]
    = (Return tt, mkState ["T1"] [] em de).
Proof.
  apply (proj2 (balanced_logs_restore_stack string decode_every "T1"
                  ["Program log: before";
                   "Program T2 invoke [2]"; "Program log: hidden";
                   "Program T2 consumed 50 units"; "Program T2 success";
                   "Program log: after"]
                  (balanced_line "T1" "Program log: before" _
                     eq_refl eq_refl
                     (balanced_call "T1" "Program T2 invoke [2]"
                        ["Program log: hidden"]
                        "Program T2 consumed 50 units" "Program T2 success"
                        ["Program log: after"]
                        eq_refl
                        (balanced_line "T1" "Program log: hidden" []
                           eq_refl eq_refl (balanced_nil "T1"))
                        eq_refl
                        (balanced_line "T1" "Program log: after" []
                           eq_refl eq_refl (balanced_nil "T1")))))
           "Program T1 invoke [1]" "T1").
  reflexivity.
Defined.

(** The events of the last extraction: the two lines of the target. *)
Example parseLogs_call_between_logs :
  parseLogs string decode_every "T1"
    ["Program T1 invoke [1]"; "Program log: before";
     "Program T2 invoke [2]"; "Program log: hidden";
     "Program T2 consumed 50 units"; "Program T2 success";
     "Program log: after"]
  = (Return tt,
     mkState ["T1"] [] ["before"; "after"] ["before"; "after"]).
Proof. reflexivity. Qed.

End FurtherScenarios.
